(** * Yasper: the prefix-matching command tree

    A shallow embedding of [yasper.py] (the command search tree and the
    [Yasper] front end that drives it) together with the properties of
    command resolution: exact matches, undercompletion, overcompletion,
    ambiguity and soundness.

    Python [str] values are modelled by [string] (ASCII text); a node's
    character is the one-character string the source stores in [self.c],
    and the root carries the empty string.  Python objects mutated in place
    are modelled by functions that return the updated object. *)

From Stdlib Require Import Bool Arith Lia List ZArith Ascii String.
Import ListNotations.
Open Scope string_scope.

Set Warnings "-register-all".

(** ** Data model *)

(** [class YasperCommandTreeNode]: the fields set by [__init__].  The
    wrapper class [YasperCommandTreeNodeChildren] only holds
    [childrenlist]; the list is stored directly. *)
Inductive YasperCommandTreeNode : Type :=
  mkNode {
    c : string;
    children : list YasperCommandTreeNode;
    terminal : bool;
    maxdescendants : nat
  }.

(** The one-character string [s[0]] of a non-empty string. *)
Definition char1 (a : ascii) : string := String a EmptyString.

(** [str.upper()] on ASCII text. *)
Definition upper_ascii (a : ascii) : ascii :=
  let n := nat_of_ascii a in
  if ((97 <=? n) && (n <=? 122))%nat then ascii_of_nat (n - 32) else a.

Fixpoint upper (s : string) : string :=
  match s with
  | EmptyString => EmptyString
  | String a s' => String (upper_ascii a) (upper s')
  end.

(** [str.isspace()] on one ASCII character: tab, line feed, vertical tab,
    form feed, carriage return, the four separators 28..31 and space. *)
Definition isspace (a : ascii) : bool :=
  let n := nat_of_ascii a in
  (((9 <=? n) && (n <=? 13)) || ((28 <=? n) && (n <=? 32)))%nat.

(** [str.split()] without arguments: the maximal runs of non-blank
    characters, in order.  [cur] is the word being read. *)
Fixpoint split_from (cur : string) (s : string) : list string :=
  match s with
  | EmptyString => if String.eqb cur "" then [] else [cur]
  | String a s' =>
      if isspace a then
        if String.eqb cur "" then split_from "" s'
        else cur :: split_from "" s'
      else split_from (cur ++ char1 a) s'
  end.

Definition split (s : string) : list string := split_from "" s.

(** ** [class YasperCommandTreeNodeChildren] *)

Module YasperCommandTreeNodeChildren.

Definition getCharacters (childrenlist : list YasperCommandTreeNode)
    : list string :=
    map c childrenlist.

Fixpoint getChild (childrenlist : list YasperCommandTreeNode) (ch : string)
    : option YasperCommandTreeNode :=
    match childrenlist with
    | [] => None
    | child :: rest =>
        if String.eqb (c child) ch then Some child else getChild rest ch
    end.

  (** Returns the updated list and the node handed back to the caller. *)
Definition addChild (childrenlist : list YasperCommandTreeNode) (ch : string)
    : list YasperCommandTreeNode * option YasperCommandTreeNode :=
    if existsb (String.eqb ch) (getCharacters childrenlist) then
      (childrenlist, getChild childrenlist ch)
    else
      let newnode := mkNode ch [] false 0 in
      ((childrenlist ++ [newnode])%list, Some newnode).

  (** The node returned by [getChild] or [addChild] is an object of the
      list; a method that mutates it changes the list entry.  [setChild]
      writes the mutated node back at the place [getChild] found it. *)
Fixpoint setChild (childrenlist : list YasperCommandTreeNode) (ch : string)
      (node : YasperCommandTreeNode) : list YasperCommandTreeNode :=
    match childrenlist with
    | [] => []
    | child :: rest =>
        if String.eqb (c child) ch then node :: rest
        else child :: setChild rest ch node
    end.

End YasperCommandTreeNodeChildren.

(** ** [class YasperCommandTreeNode] *)

Module YasperCommandTreeNode.

Module Children := YasperCommandTreeNodeChildren.

  (** [__init__(c)] *)
Definition init (ch : string) : YasperCommandTreeNode :=
    mkNode ch [] false 0.

Definition addChild (self : YasperCommandTreeNode) (ch : string)
    : YasperCommandTreeNode * option YasperCommandTreeNode :=
    let (cl, node) := Children.addChild (children self) ch in
    (mkNode (c self) cl (terminal self) (maxdescendants self), node).

Definition getChild (self : YasperCommandTreeNode) (ch : string)
    : option YasperCommandTreeNode :=
    Children.getChild (children self) ch.

  (** Returns the updated node and the integer the method returns. *)
Fixpoint updateMaxDescendants (self : YasperCommandTreeNode)
    : YasperCommandTreeNode * nat :=
    match self with
    | mkNode c0 cl t _ =>
        let '(cl', maxofchildren) :=
          (fix loop (l : list YasperCommandTreeNode) (maxofchildren : nat)
             : list YasperCommandTreeNode * nat :=
             match l with
             | [] => ([], maxofchildren)
             | child :: l' =>
                 let '(child', r) := updateMaxDescendants child in
                 let '(l'', m) := loop l' (Nat.max maxofchildren r) in
                 (child' :: l'', m)
             end) cl 0 in
        let md := Nat.max (List.length cl') maxofchildren in
        (mkNode c0 cl' t md, md)
    end.

  (** [addCommand(s)].  When [getChild] finds no child, [addChild] creates
      one; the branch in which neither yields a node cannot be taken
      (lemma [addChild_fresh]) and leaves the node as it is. *)
Fixpoint addCommand (s : string) (self : YasperCommandTreeNode)
    : YasperCommandTreeNode :=
    match s with
    | EmptyString =>
        mkNode (c self) (children self) true (maxdescendants self)
    | String s0 s1 =>
        let (self', nextnode) :=
          match getChild self (char1 s0) with
          | Some n => (self, Some n)
          | None => addChild self (char1 s0)
          end in
        match nextnode with
        | Some n =>
            mkNode (c self')
              (Children.setChild (children self') (char1 s0) (addCommand s1 n))
              (terminal self') (maxdescendants self')
        | None => self'
        end
    end.

Fixpoint followTrail (self : YasperCommandTreeNode) : option string :=
    match self with
    | mkNode c0 cl t _ =>
        match cl with
        | [child0] =>
            if t then None
            else
              match followTrail child0 with
              | None => None
              | Some subtrail => Some (c0 ++ subtrail)
              end
        | _ => Some c0
        end
    end.

Fixpoint searchCommand (s : string) (self : YasperCommandTreeNode)
    : option string :=
    match s with
    | EmptyString =>
        if terminal self then Some (c self)
        else if (maxdescendants self =? 1)%nat then followTrail self
        else None
    | String s0 s1 =>
        match Children.getChild (children self) (char1 s0) with
        | None => if terminal self then Some (c self) else None
        | Some nextnode =>
            match searchCommand s1 nextnode with
            | None => None
            | Some futuresearch => Some (c self ++ futuresearch)
            end
        end
    end.

End YasperCommandTreeNode.

(** ** [class YasperCommandTree] *)

Module YasperCommandTree.

Module Node := YasperCommandTreeNode.

Record t : Type := mkTree { root : YasperCommandTreeNode }.

  (** [__init__()] *)
Definition init : t := mkTree (Node.init "").

Definition initialize (self : t) (commandlist : list string) : t :=
    let r :=
      fold_left (fun node command => Node.addCommand command node)
        commandlist (root self) in
    mkTree (fst (Node.updateMaxDescendants r)).

Definition getCommand (self : t) (s : string) : option string :=
    Node.searchCommand s (root self).

End YasperCommandTree.

(** ** [class Yasper] *)

Inductive PyError : Type := IndexError | KeyError | AttributeError.

(** A call either returns a value or raises. *)
Inductive Result (A : Type) : Type :=
| Ok (a : A)
| Raise (e : PyError).
Arguments Ok {A} a.
Arguments Raise {A} e.

Definition bind {A B : Type} (m : Result A) (k : A -> Result B) : Result B :=
  match m with
  | Ok a => k a
  | Raise e => Raise e
  end.

Notation "x <- m ;; k" := (bind m (fun x => k))
  (at level 61, m at next level, right associativity).

(** [errorprint(es)]: the line written to the console. *)
Definition errorprint (es : string) : string := "ERROR: " ++ es.

Module Yasper.

Section WithValue.

    (** What registered functions return.  A registered function is taken
        to return a value for every argument list; an exception raised
        inside one is outside the model. *)
Context {Value : Type}.

    (** [class YasperFunction] *)
Record YasperFunction : Type :=
      mkFunction { f : list string -> Value; nargs : Z }.

    (** [fdict] is a dict: keys in first-insertion order.  [ctree] does not
        exist before [initialize]. *)
Record t : Type :=
      mkYasper {
        fdict : list (string * YasperFunction);
        ctree : option YasperCommandTree.t
      }.

    (** [d[k] = v] *)
Fixpoint dict_set (d : list (string * YasperFunction)) (k : string)
        (v : YasperFunction) : list (string * YasperFunction) :=
      match d with
      | [] => [(k, v)]
      | (k', v') :: d' =>
          if String.eqb k' k then (k', v) :: d'
          else (k', v') :: dict_set d' k v
      end.

    (** [d[k]] *)
Fixpoint dict_get (d : list (string * YasperFunction)) (k : string)
      : Result YasperFunction :=
      match d with
      | [] => Raise KeyError
      | (k', v') :: d' => if String.eqb k' k then Ok v' else dict_get d' k
      end.

    (** [d.keys()] *)
Definition keys (d : list (string * YasperFunction)) : list string :=
      map fst d.

    (** [__init__()] *)
Definition init : t := mkYasper [] None.

Definition registerFunction (self : t) (s : string)
        (fn : list string -> Value) (n : Z) : t :=
      mkYasper (dict_set (fdict self) (upper s) (mkFunction fn n)) (ctree self).

Definition initialize (self : t) : t :=
      let commands := keys (fdict self) in
      mkYasper (fdict self)
        (Some (YasperCommandTree.initialize YasperCommandTree.init commands)).

Definition getCommand (self : t) (s : string) : Result (option string) :=
      match ctree self with
      | None => Raise AttributeError
      | Some tree => Ok (YasperCommandTree.getCommand tree s)
      end.

    (** The result is the returned value ([None] when nothing is returned)
        and the lines printed. *)
Definition callFunction (self : t) (s : string) (data : list string)
      : Result (option Value * list string) :=
      fn <- dict_get (fdict self) s ;;
      let expectednargs := nargs fn in
      if (Z.of_nat (List.length data) >=? expectednargs)%Z then
        let data' :=
          if (expectednargs >=? 0)%Z then firstn (Z.to_nat expectednargs) data
          else data in
        Ok (Some (f fn data'), [])
      else
        Ok (None, [errorprint ("Too few arguments for command " ++ s)]).

    (** [self.getCommand(inputlist[0].upper())], the command [execute]
        resolves for the word list of its input line. *)
Definition execute_command (self : t) (inputlist : list string)
      : Result (option string) :=
      match inputlist with
      | [] => Raise IndexError
      | word :: _ => getCommand self (upper word)
      end.

Definition execute (self : t) (inputstring : string)
      : Result (option Value * list string) :=
      if String.eqb inputstring "" then Ok (None, [])
      else
        let inputlist := split inputstring in
        command <- execute_command self inputlist ;;
        match command with
        | None => Ok (None, [errorprint "Invalid or ambiguous command"])
        | Some command => callFunction self command (tl inputlist)
        end.

    (** The driver's use of the parser: a run of [registerFunction] calls
        on a new parser. *)
Definition register_all (regs : list (string * YasperFunction)) : t :=
      fold_left
        (fun self r => registerFunction self (fst r) (f (snd r)) (nargs (snd r)))
        regs init.

End WithValue.

Arguments YasperFunction : clear implicits.
Arguments t : clear implicits.

End Yasper.

(** The two failure kinds the specification names for a resolution. *)
Inductive ResolutionError : Type := Ambiguous | NoMatch.

(** ** The driver's example *)

Definition driver_commands : list string :=
  ["ADD"; "ADDN"; "SUBTRACT"; "ENCOURAGE"].

Definition driver_tree : YasperCommandTree.t :=
  YasperCommandTree.initialize YasperCommandTree.init driver_commands.

(** ** Reading a tree

    The words a tree holds, read off by walking it with [getChild] exactly
    as [addCommand] and [searchCommand] do. *)

Module Node := YasperCommandTreeNode.
Module Children := YasperCommandTreeNodeChildren.
Module Tree := YasperCommandTree.

(** The node reached from [n] along the characters of [p]. *)
Fixpoint descend (p : string) (n : YasperCommandTreeNode)
  : option YasperCommandTreeNode :=
  match p with
  | EmptyString => Some n
  | String a p' =>
      match Children.getChild (children n) (char1 a) with
      | None => None
      | Some m => descend p' m
      end
  end.

(** [p] leads to a terminal node. *)
Definition registered_at (p : string) (n : YasperCommandTreeNode) : bool :=
  match descend p n with
  | Some m => terminal m
  | None => false
  end.

(** [p] leads to some node. *)
Definition has_path (p : string) (n : YasperCommandTreeNode) : bool :=
  match descend p n with
  | Some _ => true
  | None => false
  end.

(** [P] holds of [n] and of every node below it. *)
Fixpoint forall_nodes (P : YasperCommandTreeNode -> Prop)
    (n : YasperCommandTreeNode) : Prop :=
  match n with
  | mkNode _ cl _ _ =>
      P n /\
      (fix all (l : list YasperCommandTreeNode) : Prop :=
         match l with
         | [] => True
         | child :: l' => forall_nodes P child /\ all l'
         end) cl
  end.

(** A node below the root stands for one character, and a node without
    children ends a command. *)
Definition leaf_terminal (n : YasperCommandTreeNode) : Prop :=
  children n = [] -> terminal n = true.

Definition built_ok (n : YasperCommandTreeNode) : Prop :=
  (exists a, c n = char1 a) /\ leaf_terminal n.

(** What [updateMaxDescendants] leaves in [maxdescendants]. *)
Definition md_local (n : YasperCommandTreeNode) : Prop :=
  maxdescendants n =
  Nat.max (List.length (children n))
          (list_max (map maxdescendants (children n))).

Definition node_ok (n : YasperCommandTreeNode) : Prop :=
  built_ok n /\ md_local n.

(** The invariant of a finalized tree, stated at its root: the root may
    carry the empty string and may be a non-terminal leaf. *)
Definition tree_ok (n : YasperCommandTreeNode) : Prop :=
  md_local n /\ Forall (forall_nodes node_ok) (children n).

(** The node [updateMaxDescendants] leaves behind. *)
Definition finalized (n : YasperCommandTreeNode) : YasperCommandTreeNode :=
  fst (Node.updateMaxDescendants n).

(** The tree grown from a command list. *)
Definition tree_of (commandlist : list string) : YasperCommandTree.t :=
  Tree.initialize Tree.init commandlist.

(** The child [addCommand] recurses into: the one [getChild] finds, or the
    fresh node [addChild] makes. *)
Definition next_node (n : YasperCommandTreeNode) (a : ascii)
  : YasperCommandTreeNode :=
  match Children.getChild (children n) (char1 a) with
  | Some m => m
  | None => Node.init (char1 a)
  end.

(** The loop of [YasperCommandTree.initialize]. *)
Definition grow (commandlist : list string) (n : YasperCommandTreeNode)
  : YasperCommandTreeNode :=
  fold_left (fun node command => Node.addCommand command node) commandlist n.

(** A parser with the driver's two [add] commands, each bound to a
    function that counts its arguments. *)
Definition example_yasper : Yasper.t nat :=
  Yasper.initialize
    (Yasper.register_all
       [("add", Yasper.mkFunction (@List.length string) (-1));
        ("addn", Yasper.mkFunction (@List.length string) (-1))]).

(** The children of [n] stand for different characters. *)
Definition distinct_children (n : YasperCommandTreeNode) : Prop :=
  NoDup (Children.getCharacters (children n)).

(** [n] and all the nodes below it, parents first. *)
Fixpoint subnodes (n : YasperCommandTreeNode) : list YasperCommandTreeNode :=
  match n with
  | mkNode _ cl _ _ =>
      n :: (fix all (l : list YasperCommandTreeNode)
              : list YasperCommandTreeNode :=
              match l with
              | [] => []
              | child :: l' => (subnodes child ++ all l')%list
              end) cl
  end.

(** Resolution read off the command list alone.  [p] is the part of the
    query walked so far, [q] the rest.  While some command goes on with the
    next character the walk goes on; when none does, [p] is the answer if
    it is a command.  When the query is used up, [p] is the answer if it is
    a command, and otherwise the one command that extends it, if there is
    exactly one. *)
Fixpoint resolve_from (cmds : list string) (p q : string) : option string :=
  match q with
  | EmptyString =>
      if existsb (String.eqb p) cmds then Some p
      else
        match nodup string_dec (filter (prefix p) cmds) with
        | [C] => Some C
        | _ => None
        end
  | String a q' =>
      if existsb (prefix (p ++ char1 a)) cmds
      then resolve_from cmds (p ++ char1 a) q'
      else if existsb (String.eqb p) cmds then Some p else None
  end.

Definition resolve_spec (cmds : list string) (q : string) : option string :=
  resolve_from cmds "" q.


(** Every character of [s] is a blank. *)
Fixpoint all_blank (s : string) : bool :=
  match s with
  | EmptyString => true
  | String a s' => isspace a && all_blank s'
  end.

(** ** Induction on nodes *)

Section NodeInduction.

Variable P : YasperCommandTreeNode -> Prop.
Hypothesis step : forall c0 cl t md,
      Forall P cl -> P (mkNode c0 cl t md).

Fixpoint node_induction (n : YasperCommandTreeNode) : P n :=
    match n with
    | mkNode c0 cl t md =>
        step c0 cl t md
          ((fix all (l : list YasperCommandTreeNode) : Forall P l :=
              match l with
              | [] => Forall_nil P
              | child :: l' => Forall_cons child (node_induction child) (all l')
              end) cl)
    end.

End NodeInduction.

(** ** Strings *)

Lemma append_nil_r (s : string) : s ++ "" = s.
Proof. induction s as [|a s IH]; simpl; [reflexivity | now rewrite IH]. Qed.

Lemma append_assoc (s1 s2 s3 : string) : (s1 ++ s2) ++ s3 = s1 ++ (s2 ++ s3).
Proof. induction s1 as [|a s1 IH]; simpl; [reflexivity | now rewrite IH]. Qed.

Lemma append_inv_l (p s1 s2 : string) : p ++ s1 = p ++ s2 -> s1 = s2.
Proof.
  induction p as [|a p IH]; simpl; intros H; [exact H|].
  injection H as H. now apply IH.
Qed.

Lemma append_eq_self (p s : string) : p ++ s = p -> s = "".
Proof.
  intros H. apply (append_inv_l p). now rewrite append_nil_r.
Qed.

Lemma prefix_append (p s : string) : prefix p (p ++ s) = true.
Proof.
  induction p as [|a p IH]; simpl.
  - now destruct s.
  - destruct (ascii_dec a a) as [_|ne]; [exact IH | now elim ne].
Qed.

Lemma prefix_inv (p s : string) :
  prefix p s = true -> exists r, s = p ++ r.
Proof.
  revert s. induction p as [|a p IH]; intros s H.
  - now exists s.
  - destruct s as [|b s]; simpl in H; [discriminate|].
    destruct (ascii_dec a b) as [<-|]; [|discriminate].
    destruct (IH _ H) as [r ->]. now exists r.
Qed.

Lemma prefix_nil (s : string) : prefix "" s = true.
Proof. now destruct s. Qed.

(** ** The children list *)

Lemma getChild_c cl k m : Children.getChild cl k = Some m -> c m = k.
Proof.
  induction cl as [|x cl IH]; simpl; [discriminate|].
  destruct (String.eqb_spec (c x) k) as [E|_]; [|exact IH].
  intros H. now injection H as <-.
Qed.

Lemma getChild_In cl k m : Children.getChild cl k = Some m -> In m cl.
Proof.
  induction cl as [|x cl IH]; simpl; [discriminate|].
  destruct (String.eqb (c x) k).
  - intros H. injection H as <-. now left.
  - intros H. right. now apply IH.
Qed.

Lemma In_getChild cl m : In m cl -> Children.getChild cl (c m) <> None.
Proof.
  induction cl as [|x cl IH]; simpl; [tauto|].
  intros [->|H].
  - now rewrite String.eqb_refl.
  - destruct (String.eqb (c x) (c m)); [discriminate | now apply IH].
Qed.

Lemma getChild_existsb cl k :
  existsb (String.eqb k) (Children.getCharacters cl) =
  match Children.getChild cl k with Some _ => true | None => false end.
Proof.
  induction cl as [|x cl IH]; simpl; [reflexivity|].
  rewrite (String.eqb_sym k (c x)).
  destruct (String.eqb (c x) k); [reflexivity | exact IH].
Qed.

(** [addChild] on a character no child stands for appends a fresh node
    and returns it. *)
Lemma addChild_fresh cl k :
  Children.getChild cl k = None ->
  Children.addChild cl k = ((cl ++ [Node.init k])%list, Some (Node.init k)).
Proof.
  intros H. unfold Children.addChild.
  now rewrite getChild_existsb, H.
Qed.

Lemma setChild_fresh cl k x y :
  Children.getChild cl k = None -> c x = k ->
  Children.setChild (cl ++ [x]) k y = (cl ++ [y])%list.
Proof.
  intros H <-. induction cl as [|z cl IH]; simpl in *.
  - now rewrite String.eqb_refl.
  - destruct (String.eqb (c z) (c x)); [discriminate|].
    now rewrite IH.
Qed.

Lemma setChild_same cl k m :
  Children.getChild cl k = Some m -> Children.setChild cl k m = cl.
Proof.
  induction cl as [|x cl IH]; simpl; [discriminate|].
  destruct (String.eqb (c x) k).
  - intros H. now injection H as <-.
  - intros H. now rewrite IH.
Qed.

Lemma getChild_setChild cl k k' x y :
  Children.getChild cl k = Some x -> c y = k ->
  Children.getChild (Children.setChild cl k y) k' =
  if String.eqb k k' then Some y else Children.getChild cl k'.
Proof.
  intros H <-. induction cl as [|z cl IH]; simpl in *; [discriminate|].
  destruct (String.eqb_spec (c z) (c y)) as [E|NE]; simpl.
  - destruct (String.eqb_spec (c y) k') as [E'|NE'].
    + reflexivity.
    + rewrite E. destruct (String.eqb_spec (c y) k'); [contradiction | reflexivity].
  - destruct (String.eqb_spec (c z) k') as [E'|NE'].
    + destruct (String.eqb_spec (c y) k') as [E''|_]; [congruence | reflexivity].
    + now apply IH.
Qed.

Lemma getChild_app cl k' x :
  Children.getChild (cl ++ [x]) k' =
  match Children.getChild cl k' with
  | Some m => Some m
  | None => if String.eqb (c x) k' then Some x else None
  end.
Proof.
  induction cl as [|z cl IH]; simpl; [reflexivity|].
  destruct (String.eqb (c z) k'); [reflexivity | exact IH].
Qed.

Lemma Forall_setChild (P : YasperCommandTreeNode -> Prop) cl k y :
  Forall P cl -> P y -> Forall P (Children.setChild cl k y).
Proof.
  intros H Hy. induction H as [|x cl Hx H IH]; simpl; [constructor|].
  destruct (String.eqb (c x) k); constructor; assumption.
Qed.

(** ** [addCommand] *)

Lemma addCommand_cons a s n :
  Node.addCommand (String a s) n =
  mkNode (c n)
    (match Children.getChild (children n) (char1 a) with
     | Some m => Children.setChild (children n) (char1 a) (Node.addCommand s m)
     | None => (children n ++ [Node.addCommand s (Node.init (char1 a))])%list
     end)
    (terminal n) (maxdescendants n).
Proof.
  cbn [Node.addCommand]. unfold Node.getChild, Node.addChild.
  destruct (Children.getChild (children n) (char1 a)) as [m|] eqn:E.
  - reflexivity.
  - rewrite (addChild_fresh _ _ E). cbn [c children terminal maxdescendants].
    now rewrite (setChild_fresh _ _ _ _ E).
Qed.

Lemma addCommand_c s n : c (Node.addCommand s n) = c n.
Proof. destruct s; [reflexivity | now rewrite addCommand_cons]. Qed.

Lemma addCommand_terminal_cons a s n :
  terminal (Node.addCommand (String a s) n) = terminal n.
Proof. now rewrite addCommand_cons. Qed.

Lemma addCommand_getChild a s n k :
  Children.getChild (children (Node.addCommand (String a s) n)) k =
  if String.eqb (char1 a) k then Some (Node.addCommand s (next_node n a))
  else Children.getChild (children n) k.
Proof.
  rewrite addCommand_cons. cbn [children]. unfold next_node.
  destruct (Children.getChild (children n) (char1 a)) as [m|] eqn:E.
  - apply (getChild_setChild _ _ _ m); [exact E|].
    rewrite addCommand_c. now apply getChild_c in E.
  - rewrite getChild_app, addCommand_c. cbn [Node.init c].
    destruct (String.eqb_spec (char1 a) k) as [<-|NE].
    + now rewrite E.
    + now destruct (Children.getChild (children n) k).
Qed.

Lemma char1_eqb a b : String.eqb (char1 a) (char1 b) = Ascii.eqb a b.
Proof. unfold char1. simpl. now destruct (Ascii.eqb a b). Qed.

Lemma descend_init p k :
  descend p (Node.init k) = match p with EmptyString => Some (Node.init k) | _ => None end.
Proof. now destruct p. Qed.

Lemma registered_next a p n :
  registered_at p (next_node n a) = registered_at (String a p) n.
Proof.
  unfold registered_at, next_node. cbn [descend].
  destruct (Children.getChild (children n) (char1 a)); [reflexivity|].
  now destruct p.
Qed.

(** Adding a command registers exactly that word. *)
Lemma registered_addCommand cmd : forall p n,
  registered_at p (Node.addCommand cmd n) =
  String.eqb p cmd || registered_at p n.
Proof.
  induction cmd as [|a cmd IH]; intros p n.
  - destruct p as [|b p]; [reflexivity|].
    unfold registered_at. cbn. reflexivity.
  - destruct p as [|b p].
    + unfold registered_at. cbn [descend]. now rewrite addCommand_terminal_cons.
    + transitivity
        (match descend (String b p) (Node.addCommand (String a cmd) n) with
         | Some m => terminal m | None => false end); [reflexivity|].
      cbn [descend]. rewrite addCommand_getChild, char1_eqb.
      cbn [String.eqb]. rewrite (Ascii.eqb_sym b a).
      destruct (Ascii.eqb_spec a b) as [<-|NE].
      * fold (registered_at p (Node.addCommand cmd (next_node n a))).
        rewrite IH, registered_next. reflexivity.
      * reflexivity.
Qed.

(** Adding a command adds exactly the paths that spell its prefixes. *)
Lemma has_path_addCommand cmd : forall p n,
  has_path p (Node.addCommand cmd n) = prefix p cmd || has_path p n.
Proof.
  induction cmd as [|a cmd IH]; intros p n.
  - destruct p as [|b p]; [reflexivity|].
    unfold has_path. cbn. reflexivity.
  - destruct p as [|b p]; [reflexivity|].
    transitivity
      (match descend (String b p) (Node.addCommand (String a cmd) n) with
       | Some _ => true | None => false end); [reflexivity|].
    cbn [descend]. rewrite addCommand_getChild, char1_eqb.
    cbn [prefix].
    destruct (ascii_dec b a) as [->|NE].
    + rewrite Ascii.eqb_refl.
      fold (has_path p (Node.addCommand cmd (next_node n a))).
      rewrite IH. unfold has_path, next_node. cbn [descend].
      destruct (Children.getChild (children n) (char1 a)); [reflexivity|].
      rewrite descend_init. destruct p; [|reflexivity].
      now rewrite prefix_nil.
    + destruct (Ascii.eqb_spec a b) as [->|_]; [now elim NE | reflexivity].
Qed.

(** ** Growing the tree from a command list *)

Lemma registered_grow cmds : forall p n,
  registered_at p (grow cmds n) =
  registered_at p n || existsb (String.eqb p) cmds.
Proof.
  induction cmds as [|cmd cmds IH]; intros p n; cbn [grow fold_left existsb].
  - now rewrite orb_false_r.
  - fold (grow cmds (Node.addCommand cmd n)).
    rewrite IH, registered_addCommand.
    destruct (String.eqb p cmd), (registered_at p n); reflexivity.
Qed.

Lemma has_path_grow cmds : forall p n,
  has_path p (grow cmds n) = has_path p n || existsb (prefix p) cmds.
Proof.
  induction cmds as [|cmd cmds IH]; intros p n; cbn [grow fold_left existsb].
  - now rewrite orb_false_r.
  - fold (grow cmds (Node.addCommand cmd n)).
    rewrite IH, has_path_addCommand.
    destruct (prefix p cmd), (has_path p n); reflexivity.
Qed.

Lemma grow_c cmds : forall n, c (grow cmds n) = c n.
Proof.
  induction cmds as [|cmd cmds IH]; intros n; cbn [grow fold_left]; [reflexivity|].
  fold (grow cmds (Node.addCommand cmd n)). now rewrite IH, addCommand_c.
Qed.

Lemma forall_nodes_unfold P n :
  forall_nodes P n <-> P n /\ Forall (forall_nodes P) (children n).
Proof.
  destruct n as [c0 cl t md]. cbn [forall_nodes children].
  assert (E : forall l,
             (fix all (l : list YasperCommandTreeNode) : Prop :=
                match l with
                | [] => True
                | child :: l' => forall_nodes P child /\ all l'
                end) l <-> Forall (forall_nodes P) l).
  { induction l as [|x l IH]; [now split; [constructor|]|].
    rewrite IH. split.
    - intros [H1 H2]. now constructor.
    - intros H. inversion H; subst. now split. }
  now rewrite E.
Qed.

(** ** [updateMaxDescendants] *)

Lemma updateMaxDescendants_snd n :
  snd (Node.updateMaxDescendants n) = maxdescendants (finalized n).
Proof.
  unfold finalized. destruct n as [c0 cl t md]. cbn [Node.updateMaxDescendants].
  match goal with |- context [?F cl 0] => destruct (F cl 0) as [cl' m] end.
  reflexivity.
Qed.

Lemma finalized_fields n :
  c (finalized n) = c n /\
  terminal (finalized n) = terminal n /\
  children (finalized n) = map finalized (children n) /\
  md_local (finalized n).
Proof.
  unfold md_local, finalized.
  destruct n as [c0 cl t md]. cbn [Node.updateMaxDescendants].
  match goal with |- context [?F cl 0] => set (loop := F) end.
  assert (E : forall l acc,
             loop l acc =
             (map finalized l,
              Nat.max acc (list_max (map maxdescendants (map finalized l))))).
  { induction l as [|x l IH]; intros acc.
    - cbn. now rewrite Nat.max_0_r.
    - cbn [loop]. fold loop.
      pose proof (updateMaxDescendants_snd x) as Hs. unfold finalized in Hs.
      destruct (Node.updateMaxDescendants x) as [x' r] eqn:Ex.
      cbn [snd fst] in Hs. subst r. rewrite IH.
      assert (Ex' : finalized x = x') by (unfold finalized; now rewrite Ex).
      cbn [map list_max fold_right]. rewrite Ex'.
      f_equal. fold (list_max (map maxdescendants (map finalized l))). lia. }
  rewrite E. cbn [fst c terminal children maxdescendants].
  repeat split.
Qed.

Lemma finalized_c n : c (finalized n) = c n.
Proof. apply finalized_fields. Qed.

Lemma finalized_terminal n : terminal (finalized n) = terminal n.
Proof. apply finalized_fields. Qed.

Lemma finalized_children n : children (finalized n) = map finalized (children n).
Proof. apply finalized_fields. Qed.

Lemma finalized_md_local n : md_local (finalized n).
Proof. apply finalized_fields. Qed.

Lemma getChild_finalized cl k :
  Children.getChild (map finalized cl) k =
  option_map finalized (Children.getChild cl k).
Proof.
  induction cl as [|x cl IH]; simpl; [reflexivity|].
  rewrite finalized_c. destruct (String.eqb (c x) k); [reflexivity | exact IH].
Qed.

Lemma descend_finalized p : forall n,
  descend p (finalized n) = option_map finalized (descend p n).
Proof.
  induction p as [|a p IH]; intros n; cbn [descend]; [reflexivity|].
  rewrite finalized_children, getChild_finalized.
  destruct (Children.getChild (children n) (char1 a)); [apply IH | reflexivity].
Qed.

Lemma registered_finalized p n :
  registered_at p (finalized n) = registered_at p n.
Proof.
  unfold registered_at. rewrite descend_finalized.
  destruct (descend p n); [apply finalized_terminal | reflexivity].
Qed.

Lemma has_path_finalized p n : has_path p (finalized n) = has_path p n.
Proof.
  unfold has_path. rewrite descend_finalized. now destruct (descend p n).
Qed.

(** ** Invariants of a grown and finalized tree *)

Lemma addCommand_leaf_terminal s n : leaf_terminal (Node.addCommand s n).
Proof.
  destruct s as [|a s]; intros H; [reflexivity|].
  pose proof (addCommand_getChild a s n (char1 a)) as G.
  rewrite H, String.eqb_refl in G. discriminate.
Qed.

Lemma addCommand_children_ok s : forall n,
  Forall (forall_nodes built_ok) (children n) ->
  Forall (forall_nodes built_ok) (children (Node.addCommand s n)).
Proof.
  induction s as [|a s IH]; intros n H; [exact H|].
  assert (step : forall m, c m = char1 a ->
                   Forall (forall_nodes built_ok) (children m) ->
                   forall_nodes built_ok (Node.addCommand s m)).
  { intros m Hc Hm. apply forall_nodes_unfold. split; [split|].
    - exists a. now rewrite addCommand_c.
    - apply addCommand_leaf_terminal.
    - now apply IH. }
  rewrite addCommand_cons. cbn [children].
  destruct (Children.getChild (children n) (char1 a)) as [m|] eqn:E.
  - apply Forall_setChild; [exact H|].
    apply step; [now apply getChild_c in E|].
    apply getChild_In in E.
    rewrite Forall_forall in H. now apply forall_nodes_unfold, H.
  - apply Forall_app. split; [exact H|].
    constructor; [|constructor]. apply step; [reflexivity | constructor].
Qed.

Lemma grow_children_ok cmds : forall n,
  Forall (forall_nodes built_ok) (children n) ->
  Forall (forall_nodes built_ok) (children (grow cmds n)).
Proof.
  induction cmds as [|cmd cmds IH]; intros n H; cbn [grow fold_left]; [exact H|].
  fold (grow cmds (Node.addCommand cmd n)). now apply IH, addCommand_children_ok.
Qed.

Lemma finalized_node_ok n :
  forall_nodes built_ok n -> forall_nodes node_ok (finalized n).
Proof.
  induction n as [c0 cl t md IH] using node_induction.
  intros H. apply forall_nodes_unfold in H. destruct H as [[Hc Hl] Hcl].
  apply forall_nodes_unfold. split; [split; [split|]|].
  - now rewrite finalized_c.
  - intros E. rewrite finalized_children in E. apply map_eq_nil in E.
    rewrite finalized_terminal. now apply Hl.
  - apply finalized_md_local.
  - rewrite finalized_children. apply Forall_map. cbn [children] in *.
    rewrite Forall_forall in *. intros x Hx. now apply IH, Hcl.
Qed.

Lemma finalized_tree_ok n :
  Forall (forall_nodes built_ok) (children n) -> tree_ok (finalized n).
Proof.
  intros H. split; [apply finalized_md_local|].
  rewrite finalized_children. apply Forall_map.
  rewrite Forall_forall in *. intros x Hx. now apply finalized_node_ok, H.
Qed.

Lemma tree_of_root cmds :
  Tree.root (tree_of cmds) = finalized (grow cmds (Node.init "")).
Proof. reflexivity. Qed.

Lemma tree_of_ok cmds : tree_ok (Tree.root (tree_of cmds)).
Proof.
  rewrite tree_of_root. apply finalized_tree_ok, grow_children_ok. constructor.
Qed.

Lemma tree_of_c cmds : c (Tree.root (tree_of cmds)) = "".
Proof. now rewrite tree_of_root, finalized_c, grow_c. Qed.

(** The terminal nodes of the tree are exactly the registered commands. *)
Lemma tree_of_registered cmds p :
  registered_at p (Tree.root (tree_of cmds)) = existsb (String.eqb p) cmds.
Proof.
  rewrite tree_of_root, registered_finalized, registered_grow.
  unfold registered_at. rewrite descend_init. now destruct p.
Qed.

(** The paths of the tree are exactly the prefixes of registered commands. *)
Lemma tree_of_has_path cmds p :
  has_path p (Tree.root (tree_of cmds)) =
  String.eqb p "" || existsb (prefix p) cmds.
Proof.
  rewrite tree_of_root, has_path_finalized, has_path_grow.
  unfold has_path. rewrite descend_init. now destruct p.
Qed.

Lemma existsb_eqb_In cmds p :
  existsb (String.eqb p) cmds = true <-> In p cmds.
Proof.
  rewrite existsb_exists. split.
  - intros [x [Hx E]]. apply String.eqb_eq in E. now subst.
  - intros H. exists p. split; [exact H | apply String.eqb_refl].
Qed.

Lemma existsb_eqb_not_In cmds p :
  existsb (String.eqb p) cmds = false <-> ~ In p cmds.
Proof.
  rewrite <- existsb_eqb_In. now destruct (existsb (String.eqb p) cmds).
Qed.

Lemma tree_ok_child n k m :
  tree_ok n -> Children.getChild (children n) k = Some m ->
  forall_nodes node_ok m.
Proof.
  intros [_ H] E. apply getChild_In in E.
  rewrite Forall_forall in H. now apply H.
Qed.

Lemma node_ok_tree_ok m : forall_nodes node_ok m -> tree_ok m.
Proof.
  intros H. apply forall_nodes_unfold in H. destruct H as [[_ Hmd] H].
  now split.
Qed.

Lemma tree_ok_descend p : forall n m,
  tree_ok n -> descend p n = Some m -> tree_ok m.
Proof.
  induction p as [|a p IH]; intros n m Hn E; cbn [descend] in E.
  - now injection E as <-.
  - destruct (Children.getChild (children n) (char1 a)) as [x|] eqn:G; [|discriminate].
    apply (IH x); [|exact E].
    now apply node_ok_tree_ok, (tree_ok_child n (char1 a)).
Qed.

(** ** [searchCommand] along a path *)

(** Once the query has led to node [m], the answer is the answer of [m]
    for the rest of the query, with the characters walked put in front. *)
Lemma search_descend p : forall n m,
  descend p n = Some m ->
  exists pre, pre ++ c m = c n ++ p /\
    forall s, Node.searchCommand (p ++ s) n =
              option_map (append pre) (Node.searchCommand s m).
Proof.
  induction p as [|a p IH]; intros n m E; cbn [descend] in E.
  - injection E as <-. exists "". split; [now rewrite append_nil_r|].
    intros s. cbn [append]. now destruct (Node.searchCommand s n).
  - destruct (Children.getChild (children n) (char1 a)) as [x|] eqn:G; [|discriminate].
    destruct (IH x m E) as [pre [Hpre Hs]].
    exists (c n ++ pre). split.
    + rewrite append_assoc, Hpre. now rewrite (getChild_c _ _ _ G).
    + intros s. cbn [append Node.searchCommand]. rewrite G, Hs.
      destruct (Node.searchCommand s m); cbn [option_map]; [|reflexivity].
      now rewrite append_assoc.
Qed.

Lemma descend_app p s : forall n,
  descend (p ++ s) n =
  match descend p n with Some m => descend s m | None => None end.
Proof.
  induction p as [|a p IH]; intros n; cbn [append descend]; [reflexivity|].
  destruct (Children.getChild (children n) (char1 a)); [apply IH | reflexivity].
Qed.

Lemma has_path_descend p n :
  has_path p n = true -> exists m, descend p n = Some m.
Proof.
  unfold has_path. destruct (descend p n) as [m|]; [now exists m | discriminate].
Qed.

Lemma registered_descend p n :
  registered_at p n = true ->
  exists m, descend p n = Some m /\ terminal m = true.
Proof.
  unfold registered_at. destruct (descend p n) as [m|]; [now exists m | discriminate].
Qed.

(** An exact match: a query that ends on a terminal node is answered by
    the characters walked. *)
Lemma search_registered p n :
  registered_at p n = true -> Node.searchCommand p n = Some (c n ++ p).
Proof.
  intros H. destruct (registered_descend _ _ H) as [m [E T]].
  destruct (search_descend _ _ _ E) as [pre [Hpre Hs]].
  specialize (Hs ""). rewrite append_nil_r in Hs. rewrite Hs.
  cbn [Node.searchCommand]. rewrite T. cbn [option_map]. now rewrite Hpre.
Qed.

(** Divergence: the node reached has no child for the next character. *)
Lemma search_diverge p a s n m :
  descend p n = Some m ->
  Children.getChild (children m) (char1 a) = None ->
  Node.searchCommand (p ++ String a s) n =
  if terminal m then Some (c n ++ p) else None.
Proof.
  intros E G. destruct (search_descend _ _ _ E) as [pre [Hpre Hs]].
  rewrite Hs. cbn [Node.searchCommand]. rewrite G.
  destruct (terminal m); cbn [option_map]; [now rewrite Hpre | reflexivity].
Qed.

(** ** [followTrail] *)

Lemma followTrail_unfold n :
  Node.followTrail n =
  match children n with
  | [child0] =>
      if terminal n then None
      else match Node.followTrail child0 with
           | None => None
           | Some subtrail => Some (c n ++ subtrail)
           end
  | _ => Some (c n)
  end.
Proof. now destruct n. Qed.

Lemma md_local_le1 n :
  md_local n -> maxdescendants n <= 1 ->
  List.length (children n) <= 1 /\
  Forall (fun ch => maxdescendants ch <= 1) (children n).
Proof.
  unfold md_local. intros E H. split; [lia|].
  assert (L : list_max (map maxdescendants (children n)) <= 1) by lia.
  apply list_max_le in L. now rewrite Forall_map in L.
Qed.

Lemma single_child n m k :
  List.length (children n) <= 1 ->
  Children.getChild (children n) k = Some m -> children n = [m].
Proof.
  intros L G. destruct (children n) as [|x [|y l]]; simpl in *.
  - discriminate.
  - destruct (String.eqb (c x) k); [now injection G as -> | discriminate].
  - lia.
Qed.

(** Two different words below a chain node: the trail meets a terminal
    node that has a child, and stops. *)
Lemma followTrail_two r1 : forall r2 n,
  tree_ok n -> maxdescendants n <= 1 ->
  registered_at r1 n = true -> registered_at r2 n = true -> r1 <> r2 ->
  Node.followTrail n = None.
Proof.
  induction r1 as [|a r1 IH]; intros r2 n Hok Hmd H1 H2 NE.
  - destruct r2 as [|b r2]; [now elim NE|].
    unfold registered_at in H1, H2. cbn [descend] in H1, H2.
    destruct (Children.getChild (children n) (char1 b)) as [y|] eqn:Gy; [|discriminate].
    destruct (md_local_le1 n (proj1 Hok) Hmd) as [L _].
    rewrite followTrail_unfold, (single_child _ _ _ L Gy). now rewrite H1.
  - unfold registered_at in H1. cbn [descend] in H1.
    destruct (Children.getChild (children n) (char1 a)) as [x|] eqn:Gx; [|discriminate].
    destruct (md_local_le1 n (proj1 Hok) Hmd) as [L F].
    pose proof (single_child _ _ _ L Gx) as S.
    rewrite followTrail_unfold, S.
    destruct (terminal n) eqn:T; [reflexivity|].
    destruct r2 as [|b r2]; [unfold registered_at in H2; cbn in H2; congruence|].
    unfold registered_at in H2. cbn [descend] in H2.
    destruct (Children.getChild (children n) (char1 b)) as [y|] eqn:Gy; [|discriminate].
    pose proof (single_child _ _ _ L Gy) as S'.
    assert (y = x) by congruence. subst y.
    assert (b = a).
    { apply getChild_c in Gx, Gy. rewrite Gx in Gy. now injection Gy. }
    subst b.
    rewrite (IH r2 x); [reflexivity| | |exact H1|exact H2|now intros ->].
    + now apply node_ok_tree_ok, (tree_ok_child n (char1 a)).
    + rewrite S in F. now inversion F.
Qed.

(** The trail from a chain node down to the single word below it. *)
Lemma followTrail_chain r : forall n,
  tree_ok n -> maxdescendants n <= 1 ->
  registered_at r n = true ->
  (forall r1 r2, r = r1 ++ r2 -> r2 <> "" -> registered_at r1 n = false) ->
  (forall a, has_path (r ++ char1 a) n = false) ->
  Node.followTrail n = Some (c n ++ r).
Proof.
  induction r as [|a r IH]; intros n Hok Hmd H Hpre Hext.
  - rewrite followTrail_unfold.
    destruct (children n) as [|x l] eqn:E; [now rewrite append_nil_r|].
    exfalso. destruct Hok as [_ F]. rewrite E in F.
    apply Forall_inv, forall_nodes_unfold in F.
    destruct F as [[[[b Hb] _] _] _].
    specialize (Hext b). unfold has_path, char1 in Hext.
    cbn [append descend] in Hext. fold (char1 b) in Hext.
    rewrite E in Hext. cbn [Children.getChild] in Hext.
    rewrite Hb, String.eqb_refl in Hext. discriminate.
  - unfold registered_at in H. cbn [descend] in H.
    destruct (Children.getChild (children n) (char1 a)) as [x|] eqn:Gx; [|discriminate].
    destruct (md_local_le1 n (proj1 Hok) Hmd) as [L F].
    pose proof (single_child _ _ _ L Gx) as S.
    rewrite followTrail_unfold, S.
    assert (T : terminal n = false).
    { apply (Hpre "" (String a r)); [reflexivity | discriminate]. }
    rewrite T, (IH x).
    + now rewrite (getChild_c _ _ _ Gx).
    + now apply node_ok_tree_ok, (tree_ok_child n (char1 a)).
    + rewrite S in F. now inversion F.
    + exact H.
    + intros r1 r2 E NE. specialize (Hpre (String a r1) r2).
      unfold registered_at in Hpre |- *. cbn [descend append] in Hpre.
      rewrite Gx in Hpre. apply Hpre; [now rewrite E | exact NE].
    + intros b. specialize (Hext b). unfold has_path in Hext |- *.
      cbn [descend append] in Hext. now rewrite Gx in Hext.
Qed.

(** Whatever the trail returns is a word of the subtree. *)
Lemma followTrail_sound n : forall r,
  tree_ok n -> leaf_terminal n -> maxdescendants n <= 1 ->
  Node.followTrail n = Some r ->
  exists w, r = c n ++ w /\ registered_at w n = true.
Proof.
  induction n as [c0 cl t md IH] using node_induction.
  intros r Hok Hleaf Hmd H.
  rewrite followTrail_unfold in H. cbn [children terminal c] in *.
  destruct (md_local_le1 _ (proj1 Hok) Hmd) as [L F]. cbn [children] in L, F.
  destruct cl as [|x [|y l]]; [| |simpl in L; lia].
  - injection H as <-. exists "". split; [now rewrite append_nil_r|].
    now apply Hleaf.
  - destruct t; [discriminate|].
    destruct (Node.followTrail x) as [sub|] eqn:Ex; [|discriminate].
    injection H as <-.
    destruct Hok as [_ Hch]. cbn [children] in Hch.
    apply Forall_inv in Hch. pose proof Hch as Hx.
    apply forall_nodes_unfold in Hx. destruct Hx as [[[[a Ha] Hl] _] _].
    apply Forall_inv in IH.
    destruct (IH sub (node_ok_tree_ok _ Hch) Hl (Forall_inv F) Ex) as [w [-> Hw]].
    exists (String a w). split; [now rewrite Ha|].
    unfold registered_at. cbn [descend children Children.getChild].
    now rewrite Ha, String.eqb_refl.
Qed.

(** Whatever [searchCommand] returns is a word of the subtree. *)
Lemma search_sound s : forall n r,
  tree_ok n -> Node.searchCommand s n = Some r ->
  exists w, r = c n ++ w /\ registered_at w n = true.
Proof.
  induction s as [|a s IH]; intros n r Hok H; cbn [Node.searchCommand] in H.
  - destruct (terminal n) eqn:T.
    + injection H as <-. exists "". now rewrite append_nil_r.
    + destruct (Nat.eqb_spec (maxdescendants n) 1) as [E|]; [|discriminate].
      apply followTrail_sound; [exact Hok| |lia|exact H].
      intros C. destruct Hok as [Hmd _]. unfold md_local in Hmd.
      rewrite C in Hmd. cbn in Hmd. lia.
  - destruct (Children.getChild (children n) (char1 a)) as [x|] eqn:G.
    + destruct (Node.searchCommand s x) as [fs|] eqn:Es; [|discriminate].
      injection H as <-.
      destruct (IH x fs) as [w [-> Hw]]; [|exact Es|].
      { now apply node_ok_tree_ok, (tree_ok_child n (char1 a)). }
      exists (String a w). split; [now rewrite (getChild_c _ _ _ G)|].
      unfold registered_at. cbn [descend]. now rewrite G.
    + destruct (terminal n) eqn:T; [|discriminate].
      injection H as <-. exists "". now rewrite append_nil_r.
Qed.

(** ** Resolution on the tree of a command list *)

Lemma descend_registered p s n m :
  descend p n = Some m -> registered_at (p ++ s) n = registered_at s m.
Proof. intros E. unfold registered_at. now rewrite descend_app, E. Qed.

Lemma descend_has_path p s n m :
  descend p n = Some m -> has_path (p ++ s) n = has_path s m.
Proof. intros E. unfold has_path. now rewrite descend_app, E. Qed.

Lemma append_not_nil p a s : String.eqb (p ++ String a s) "" = false.
Proof. now destruct p. Qed.

Lemma existsb_false {A} (g : A -> bool) l :
  (forall x, In x l -> g x = false) -> existsb g l = false.
Proof.
  intros H. induction l as [|x l IH]; [reflexivity|]. cbn [existsb].
  rewrite (H x (or_introl eq_refl)), IH; [reflexivity|].
  intros y Hy. apply H. now right.
Qed.

Lemma tree_of_getCommand_registered cmds C :
  In C cmds -> Tree.getCommand (tree_of cmds) C = Some C.
Proof.
  intros H. unfold Tree.getCommand.
  rewrite search_registered, tree_of_c; [reflexivity|].
  rewrite tree_of_registered. now apply existsb_eqb_In.
Qed.

(** No command goes on from [p] with [a]: the node at [p] has no child
    for [a]. *)
Lemma tree_of_no_child cmds p a m :
  descend p (Tree.root (tree_of cmds)) = Some m ->
  (forall cmd, In cmd cmds -> prefix (p ++ char1 a) cmd = false) ->
  Children.getChild (children m) (char1 a) = None.
Proof.
  intros E H.
  pose proof (tree_of_has_path cmds (p ++ char1 a)) as P.
  unfold char1 in P at 2. rewrite append_not_nil, (existsb_false _ _ H) in P.
  rewrite (descend_has_path _ _ _ _ E) in P.
  unfold has_path, char1 in P. cbn [descend] in P. fold (char1 a) in P.
  now destruct (Children.getChild (children m) (char1 a)).
Qed.

(** ** The claims *)

(** C1. Exact match: for every command list and every command [C] of the
    list, [getCommand(C)] on the tree initialized with the list returns
    [C], also when [C] is a proper prefix of another command. *)
Theorem getCommand_exact (cmds : list string) (C : string) :
  In C cmds -> Tree.getCommand (tree_of cmds) C = Some C.
Proof. apply tree_of_getCommand_registered. Qed.

Lemma getCommand_exact_witness :
  In "ADD" driver_commands /\
  Tree.getCommand (tree_of driver_commands) "ADD" = Some "ADD".
Proof.
  assert (H : In "ADD" driver_commands) by (simpl; tauto).
  split; [exact H | exact (getCommand_exact driver_commands "ADD" H)].
Defined.

(** C2, as the code has it.  The specification asks for a failure when the
    query is a registered command [C] that another command [C ++ s]
    extends; the code checks [terminal] first and answers [C]. *)
Lemma prefix_command_not_ambiguous :
  ~ (In "ADD" ["ADD"; "ADDN"] -> In ("ADD" ++ "N") ["ADD"; "ADDN"] ->
     "N" <> "" ->
     Tree.getCommand (tree_of ["ADD"; "ADDN"]) "ADD" = None).
Proof.
  intros H.
  assert (E : Tree.getCommand (tree_of ["ADD"; "ADDN"]) "ADD" = None).
  { apply H; simpl; try tauto. discriminate. }
  vm_compute in E. discriminate.
Qed.

(** C2 (amended). When the list holds both [C] and a strict extension
    [C ++ s], the query [C] resolves to [C]. *)
Theorem getCommand_prefix_command (cmds : list string) (C s : string) :
  In C cmds -> In (C ++ s) cmds -> s <> "" ->
  Tree.getCommand (tree_of cmds) C = Some C.
Proof. intros H _ _. now apply tree_of_getCommand_registered. Qed.

Lemma getCommand_prefix_command_witness :
  Tree.getCommand (tree_of driver_commands) "ADD" = Some "ADD".
Proof.
  apply (getCommand_prefix_command driver_commands "ADD" "N").
  - simpl; tauto.
  - simpl; tauto.
  - discriminate.
Defined.

(** C3. Overcompletion: for a command [C] of the list and extra characters
    [x :: X] such that no command starts with [C] followed by [x], the
    query [C ++ x :: X] resolves to [C]. *)
Theorem getCommand_overcompletion (cmds : list string) (C : string)
    (x : ascii) (X : string) :
  In C cmds ->
  (forall cmd, In cmd cmds -> prefix (C ++ char1 x) cmd = false) ->
  Tree.getCommand (tree_of cmds) (C ++ String x X) = Some C.
Proof.
  intros HC Hno.
  assert (R : registered_at C (Tree.root (tree_of cmds)) = true).
  { rewrite tree_of_registered. now apply existsb_eqb_In. }
  destruct (registered_descend _ _ R) as [m [E T]].
  unfold Tree.getCommand.
  rewrite (search_diverge C x X _ m E (tree_of_no_child cmds C x m E Hno)).
  now rewrite T, tree_of_c.
Qed.

Lemma getCommand_overcompletion_witness :
  Tree.getCommand (tree_of driver_commands) "ADDQWERTY" = Some "ADD".
Proof.
  apply (getCommand_overcompletion driver_commands "ADD" "Q"%char "WERTY").
  - simpl; tauto.
  - intros cmd [<-|[<-|[<-|[<-|[]]]]]; reflexivity.
Defined.

(** C9. Soundness: whatever [getCommand] returns on the tree initialized
    with a command list is a command of that list. *)
Theorem getCommand_sound (cmds : list string) (q r : string) :
  Tree.getCommand (tree_of cmds) q = Some r -> In r cmds.
Proof.
  intros H. unfold Tree.getCommand in H.
  destruct (search_sound q _ r (tree_of_ok cmds) H) as [w [-> Hw]].
  rewrite tree_of_c. cbn [append].
  rewrite tree_of_registered in Hw. now apply existsb_eqb_In.
Qed.

Lemma getCommand_sound_witness :
  Tree.getCommand (tree_of driver_commands) "S" = Some "SUBTRACT" /\
  In "SUBTRACT" driver_commands.
Proof.
  assert (H : Tree.getCommand (tree_of driver_commands) "S" = Some "SUBTRACT")
    by reflexivity.
  split; [exact H | exact (getCommand_sound driver_commands "S" "SUBTRACT" H)].
Defined.

(** C10. No backtracking: when the query leads to a node that is not
    terminal and has no child for the next query character, [getCommand]
    fails, whatever terminal nodes the walk has passed. *)
Theorem getCommand_no_backtracking (t : Tree.t) (p : string) (a : ascii)
    (s : string) (m : YasperCommandTreeNode) :
  descend p (Tree.root t) = Some m ->
  Children.getChild (children m) (char1 a) = None ->
  terminal m = false ->
  Tree.getCommand t (p ++ String a s) = None.
Proof.
  intros E G T. unfold Tree.getCommand.
  now rewrite (search_diverge p a s _ m E G), T.
Qed.

Lemma getCommand_no_backtracking_witness :
  In "AB" ["AB"; "ABCD"] /\
  Tree.getCommand (tree_of ["AB"; "ABCD"]) "ABCX" = None.
Proof.
  split; [simpl; tauto|].
  eapply (getCommand_no_backtracking (tree_of ["AB"; "ABCD"]) "ABC" "X"%char "").
  - reflexivity.
  - reflexivity.
  - reflexivity.
Defined.

(** The query [P] leads to a node that is not terminal: the answer is
    the trail from there when the node has [maxdescendants = 1], and a
    failure otherwise. *)
Lemma search_at_nonterminal P n m :
  descend P n = Some m -> terminal m = false ->
  exists pre, pre ++ c m = c n ++ P /\
    Node.searchCommand P n =
    if (maxdescendants m =? 1)%nat
    then option_map (append pre) (Node.followTrail m) else None.
Proof.
  intros E T. destruct (search_descend _ _ _ E) as [pre [Hpre Hs]].
  exists pre. split; [exact Hpre|].
  specialize (Hs ""). rewrite append_nil_r in Hs. rewrite Hs.
  cbn [Node.searchCommand]. rewrite T.
  now destruct (maxdescendants m =? 1)%nat.
Qed.

Lemma tree_of_descend_prefix cmds P r :
  In (P ++ r) cmds -> exists m, descend P (Tree.root (tree_of cmds)) = Some m.
Proof.
  intros H. apply has_path_descend. rewrite tree_of_has_path.
  apply orb_true_iff. right. apply existsb_exists.
  exists (P ++ r). split; [exact H | apply prefix_append].
Qed.

Lemma tree_of_terminal cmds P m :
  descend P (Tree.root (tree_of cmds)) = Some m ->
  terminal m = existsb (String.eqb P) cmds.
Proof.
  intros E. rewrite <- tree_of_registered. unfold registered_at. now rewrite E.
Qed.

(** C4, as the code has it.  With ["AD"] and ["ADD"] registered, nothing
    extends ["ADD"] and the node of ["A"] has [maxdescendants = 1], yet
    the query ["A"] fails: the trail meets the terminal node of ["AD"]. *)
Lemma undercompletion_through_command_fails :
  ~ (In "ADD" ["AD"; "ADD"] ->
     (forall cmd, In cmd ["AD"; "ADD"] -> prefix "ADD" cmd = true -> cmd = "ADD") ->
     "ADD" = "A" ++ "DD" -> "DD" <> "" -> "A" <> "" ->
     (exists m, descend "A" (Tree.root (tree_of ["AD"; "ADD"])) = Some m /\
                maxdescendants m = 1) ->
     Tree.getCommand (tree_of ["AD"; "ADD"]) "A" = Some "ADD").
Proof.
  intros H.
  assert (E : Tree.getCommand (tree_of ["AD"; "ADD"]) "A" = Some "ADD").
  { apply H; try discriminate; try reflexivity.
    - simpl; tauto.
    - intros cmd [<-|[<-|[]]]; [discriminate | reflexivity].
    - eexists. split; reflexivity. }
  vm_compute in E. discriminate.
Qed.

(** C4 (amended). Undercompletion: let [C = P ++ r] be a command of the
    list with [P] and [r] non-empty, such that no other command has [C] as
    a prefix and no other command lies between [P] and [C] ([P] itself
    included).  If the node of [P] has [maxdescendants = 1], the query [P]
    resolves to [C]. *)
Theorem getCommand_undercompletion (cmds : list string) (C P r : string)
    (m : YasperCommandTreeNode) :
  In C cmds ->
  (forall cmd, In cmd cmds -> prefix C cmd = true -> cmd = C) ->
  C = P ++ r -> r <> "" -> P <> "" ->
  (forall D, In D cmds -> prefix P D = true -> prefix D C = true -> D = C) ->
  descend P (Tree.root (tree_of cmds)) = Some m ->
  maxdescendants m = 1 ->
  Tree.getCommand (tree_of cmds) P = Some C.
Proof.
  intros HC Hext -> Hr _ Hmid E Hmd.
  assert (T : terminal m = false).
  { rewrite (tree_of_terminal _ _ _ E). apply existsb_eqb_not_In. intros HP.
    apply Hr, (append_eq_self P). symmetry.
    apply (Hmid P HP); [|apply prefix_append].
    rewrite <- (append_nil_r P) at 2. apply prefix_append. }
  destruct (search_at_nonterminal _ _ _ E T) as [pre [Hpre Hs]].
  unfold Tree.getCommand. rewrite Hs, Hmd. cbn [Nat.eqb].
  rewrite tree_of_c in Hpre. cbn [append] in Hpre.
  rewrite (followTrail_chain r m).
  - cbn [option_map]. now rewrite <- append_assoc, Hpre.
  - exact (tree_ok_descend _ _ _ (tree_of_ok cmds) E).
  - lia.
  - rewrite <- (descend_registered _ _ _ _ E), tree_of_registered.
    now apply existsb_eqb_In.
  - intros r1 r2 -> Hr2.
    rewrite <- (descend_registered _ _ _ _ E), tree_of_registered.
    apply existsb_eqb_not_In. intros HD.
    apply Hr2, (append_eq_self (P ++ r1)). rewrite append_assoc. symmetry.
    apply (Hmid _ HD); [apply prefix_append|].
    rewrite <- append_assoc. apply prefix_append.
  - intros a. rewrite <- (descend_has_path _ _ _ _ E), tree_of_has_path.
    rewrite <- append_assoc. unfold char1 at 1. rewrite append_not_nil.
    apply existsb_false. intros cmd Hcmd.
    destruct (prefix ((P ++ r) ++ char1 a) cmd) eqn:Px; [|reflexivity].
    exfalso. destruct (prefix_inv _ _ Px) as [t Ht].
    rewrite append_assoc in Ht.
    assert (Ec : cmd = P ++ r).
    { apply (Hext cmd Hcmd). rewrite Ht. apply prefix_append. }
    rewrite Ec in Ht. symmetry in Ht. apply append_eq_self in Ht. discriminate.
Qed.

Lemma getCommand_undercompletion_witness :
  Tree.getCommand (tree_of driver_commands) "SUB" = Some "SUBTRACT".
Proof.
  eapply (getCommand_undercompletion driver_commands "SUBTRACT" "SUB" "TRACT").
  - simpl; tauto.
  - intros cmd [<-|[<-|[<-|[<-|[]]]]]; (discriminate || reflexivity).
  - reflexivity.
  - discriminate.
  - discriminate.
  - intros D [<-|[<-|[<-|[<-|[]]]]]; (discriminate || reflexivity).
  - reflexivity.
  - reflexivity.
Defined.

(** C5, as the code has it.  ["AB"] and ["AC"] share the prefix ["A"], which
    is shorter than both; with ["A"] registered too, the query ["A"] is an
    exact match and resolves. *)
Lemma common_prefix_command_resolves :
  ~ (In "AB" ["A"; "AB"; "AC"] -> In "AC" ["A"; "AB"; "AC"] -> "AB" <> "AC" ->
     "AB" = "A" ++ "B" -> "AC" = "A" ++ "C" -> "B" <> "" -> "C" <> "" ->
     Tree.getCommand (tree_of ["A"; "AB"; "AC"]) "A" = None).
Proof.
  intros H.
  assert (E : Tree.getCommand (tree_of ["A"; "AB"; "AC"]) "A" = None).
  { apply H; try discriminate; try reflexivity; simpl; tauto. }
  vm_compute in E. discriminate.
Qed.

(** C5 (amended). Two different commands [P ++ s1] and [P ++ s2] of the
    list, both longer than [P]: if [P] is not itself a command of the
    list, the query [P] fails. *)
Theorem getCommand_common_prefix (cmds : list string) (C1 C2 P s1 s2 : string) :
  In C1 cmds -> In C2 cmds -> C1 <> C2 ->
  C1 = P ++ s1 -> C2 = P ++ s2 -> s1 <> "" -> s2 <> "" ->
  ~ In P cmds ->
  Tree.getCommand (tree_of cmds) P = None.
Proof.
  intros H1 H2 NE -> -> _ _ HP.
  destruct (tree_of_descend_prefix _ _ _ H1) as [m E].
  assert (T : terminal m = false).
  { rewrite (tree_of_terminal _ _ _ E). now apply existsb_eqb_not_In. }
  destruct (search_at_nonterminal _ _ _ E T) as [pre [_ Hs]].
  unfold Tree.getCommand. rewrite Hs.
  destruct (Nat.eqb_spec (maxdescendants m) 1) as [Hmd|]; [|reflexivity].
  rewrite (followTrail_two s1 s2 m); [reflexivity| | | | |].
  - exact (tree_ok_descend _ _ _ (tree_of_ok cmds) E).
  - lia.
  - rewrite <- (descend_registered _ _ _ _ E), tree_of_registered.
    now apply existsb_eqb_In.
  - rewrite <- (descend_registered _ _ _ _ E), tree_of_registered.
    now apply existsb_eqb_In.
  - intros ->. now apply NE.
Qed.

Lemma getCommand_common_prefix_witness :
  Tree.getCommand (tree_of driver_commands) "AD" = None.
Proof.
  apply (getCommand_common_prefix driver_commands "ADD" "ADDN" "AD" "D" "DN").
  - simpl; tauto.
  - simpl; tauto.
  - discriminate.
  - reflexivity.
  - reflexivity.
  - discriminate.
  - discriminate.
  - intros [E|[E|[E|[E|[]]]]]; discriminate.
Defined.

(** ** The empty query *)

(** Adding a command the tree already holds changes nothing. *)
Lemma addCommand_registered s : forall n,
  registered_at s n = true -> Node.addCommand s n = n.
Proof.
  induction s as [|a s IH]; intros n H.
  - unfold registered_at in H. cbn [descend] in H.
    destruct n as [c0 cl t md]. cbn in *. now subst.
  - rewrite addCommand_cons. unfold registered_at in H. cbn [descend] in H.
    destruct (Children.getChild (children n) (char1 a)) as [m|] eqn:G; [|discriminate].
    rewrite (IH m H), (setChild_same _ _ _ G). now destruct n.
Qed.

Lemma grow_registered cmds C : forall n,
  (forall x, In x cmds -> x = C) -> registered_at C n = true ->
  grow cmds n = n.
Proof.
  induction cmds as [|x cmds IH]; intros n H R; cbn [grow fold_left]; [reflexivity|].
  fold (grow cmds (Node.addCommand x n)).
  rewrite (H x (or_introl eq_refl)), (addCommand_registered C n R).
  apply IH; [|exact R]. intros y Hy. apply H. now right.
Qed.

(** The tree of a single word is a chain, and the trail from its top
    spells the word. *)
Lemma single_chain s : forall k,
  let n := finalized (Node.addCommand s (Node.init k)) in
  maxdescendants n <= 1 /\
  (s <> "" -> maxdescendants n = 1) /\
  Node.followTrail n = Some (k ++ s).
Proof.
  induction s as [|a s IH]; intros k n; subst n.
  - cbn. rewrite append_nil_r. repeat split; [lia | now intros H; elim H].
  - rewrite addCommand_cons. cbn [Node.init children Children.getChild c terminal
                                   maxdescendants app].
    set (ch := Node.addCommand s (Node.init (char1 a))).
    set (n := finalized (mkNode k [ch] false 0)).
    destruct (IH (char1 a)) as [Hle [_ Ht]]. fold ch in Hle, Ht.
    assert (Hc : children n = [finalized ch]) by apply finalized_children.
    assert (Hmd : maxdescendants n = 1).
    { pose proof (finalized_md_local (mkNode k [ch] false 0)) as M.
      fold n in M. unfold md_local in M. rewrite Hc in M.
      cbn [List.length map list_max fold_right] in M. lia. }
    repeat split; [lia | now intros _ |].
    rewrite followTrail_unfold, Hc.
    unfold n at 1. rewrite finalized_terminal. cbn [terminal].
    rewrite Ht. unfold n. now rewrite finalized_c.
Qed.

(** C6, as the code has it.  With the single command ["ADD"] the root is
    not terminal and has [maxdescendants = 1]; the empty query follows the
    trail and resolves to ["ADD"]. *)
Lemma empty_query_single_command :
  ~ (~ In "" ["ADD"] -> Tree.getCommand (tree_of ["ADD"]) "" = None).
Proof.
  intros H.
  assert (E : Tree.getCommand (tree_of ["ADD"]) "" = None).
  { apply H. intros [E|[]]. discriminate. }
  vm_compute in E. discriminate.
Qed.

(** C6 (amended). When the empty string is not a command of the list, the
    empty query fails, except when the list holds exactly one distinct
    command: then it resolves to that command. *)
Theorem getCommand_empty_query (cmds : list string) :
  ~ In "" cmds ->
  Tree.getCommand (tree_of cmds) "" =
  match nodup string_dec cmds with
  | [C] => Some C
  | _ => None
  end.
Proof.
  intros Hne.
  assert (T : terminal (Tree.root (tree_of cmds)) = false).
  { rewrite (tree_of_terminal cmds "" _ eq_refl). now apply existsb_eqb_not_In. }
  unfold Tree.getCommand. cbn [Node.searchCommand]. rewrite T.
  destruct (nodup string_dec cmds) as [|c1 [|c2 l]] eqn:N.
  - destruct cmds as [|x cmds]; [reflexivity|].
    assert (Hx : In x (nodup string_dec (x :: cmds))) by (apply nodup_In; now left).
    rewrite N in Hx. destruct Hx.
  - assert (Hall : forall x, In x cmds -> x = c1).
    { intros x Hx. apply (nodup_In string_dec) in Hx. rewrite N in Hx.
      destruct Hx as [<-|[]]. reflexivity. }
    assert (H1 : In c1 cmds).
    { apply (nodup_In string_dec). rewrite N. now left. }
    assert (Hc1 : c1 <> "") by (intros ->; now apply Hne).
    assert (G : grow cmds (Node.init "") = Node.addCommand c1 (Node.init "")).
    { destruct cmds as [|x cmds]; [destruct H1|].
      cbn [grow fold_left]. fold (grow cmds (Node.addCommand x (Node.init ""))).
      rewrite (Hall x (or_introl eq_refl)).
      apply (grow_registered cmds c1).
      - intros y Hy. apply Hall. now right.
      - now rewrite registered_addCommand, String.eqb_refl. }
    rewrite tree_of_root, G.
    destruct (single_chain c1 "") as [_ [Hmd Ht]].
    rewrite (Hmd Hc1). cbn [Nat.eqb]. exact Ht.
  - destruct (Nat.eqb_spec (maxdescendants (Tree.root (tree_of cmds))) 1)
      as [Hmd|]; [|reflexivity].
    assert (NE : c1 <> c2).
    { pose proof (NoDup_nodup string_dec cmds) as ND. rewrite N in ND.
      inversion ND as [|? ? Hn _]; subst. intros ->. apply Hn. now left. }
    apply (followTrail_two c1 c2).
    + apply tree_of_ok.
    + lia.
    + rewrite tree_of_registered. apply existsb_eqb_In.
      apply (nodup_In string_dec). rewrite N. now left.
    + rewrite tree_of_registered. apply existsb_eqb_In.
      apply (nodup_In string_dec). rewrite N. right. now left.
    + exact NE.
Qed.

Lemma getCommand_empty_query_witness :
  Tree.getCommand (tree_of driver_commands) "" = None.
Proof.
  apply (getCommand_empty_query driver_commands).
  intros [E|[E|[E|[E|[]]]]]; discriminate.
Defined.

(** ** Case *)

Lemma upper_ascii_idem a : upper_ascii (upper_ascii a) = upper_ascii a.
Proof. destruct a as [[] [] [] [] [] [] [] []]; reflexivity. Qed.

Lemma isspace_upper_ascii a : isspace (upper_ascii a) = isspace a.
Proof. destruct a as [[] [] [] [] [] [] [] []]; reflexivity. Qed.

Lemma upper_idem s : upper (upper s) = upper s.
Proof.
  induction s as [|a s IH]; cbn [upper]; [reflexivity|].
  now rewrite upper_ascii_idem, IH.
Qed.

Lemma upper_append s1 s2 : upper (s1 ++ s2) = upper s1 ++ upper s2.
Proof.
  induction s1 as [|a s1 IH]; cbn [upper append]; [reflexivity | now rewrite IH].
Qed.

Lemma upper_eqb_nil s : String.eqb (upper s) "" = String.eqb s "".
Proof. now destruct s. Qed.

(** Upper-casing a line upper-cases its words. *)
Lemma split_from_upper s : forall cur,
  split_from (upper cur) (upper s) = map upper (split_from cur s).
Proof.
  induction s as [|a s IH]; intros cur; cbn [upper split_from].
  - rewrite upper_eqb_nil. now destruct (String.eqb cur "").
  - rewrite isspace_upper_ascii, upper_eqb_nil.
    destruct (isspace a).
    + destruct (String.eqb cur ""); cbn [map]; now rewrite <- (IH "").
    + rewrite <- IH, upper_append. reflexivity.
Qed.

Lemma split_upper s : split (upper s) = map upper (split s).
Proof. exact (split_from_upper s ""). Qed.

Section YasperFacts.

Context {Value : Type}.

Lemma keys_dict_set (P : string -> Prop) (d : list (string * Yasper.YasperFunction Value))
      k v :
    Forall P (Yasper.keys d) -> P k -> Forall P (Yasper.keys (Yasper.dict_set d k v)).
Proof.
    unfold Yasper.keys. intros H Hk.
    induction d as [|[k' v'] d IH]; cbn [Yasper.dict_set map fst].
    - now constructor.
    - inversion H; subst.
      destruct (String.eqb k' k); cbn [map fst]; constructor; auto.
Qed.

Lemma keys_fold_register regs : forall self : Yasper.t Value,
    Forall (fun k => upper k = k) (Yasper.keys (Yasper.fdict self)) ->
    Forall (fun k => upper k = k)
      (Yasper.keys
         (Yasper.fdict
            (fold_left
               (fun y r =>
                  Yasper.registerFunction y (fst r) (Yasper.f (snd r))
                    (Yasper.nargs (snd r)))
               regs self))).
Proof.
    induction regs as [|r regs IH]; intros self H; cbn [fold_left]; [exact H|].
    apply IH. cbn [Yasper.registerFunction Yasper.fdict].
    apply keys_dict_set; [exact H | apply upper_idem].
Qed.

Lemma register_all_upper (regs : list (string * Yasper.YasperFunction Value)) :
    Forall (fun k => upper k = k)
      (Yasper.keys (Yasper.fdict (Yasper.register_all regs))).
Proof. apply keys_fold_register. constructor. Qed.

Lemma execute_command_upper (self : Yasper.t Value) (q : string) :
    Yasper.execute_command self (split (upper q)) =
    Yasper.execute_command self (split q).
Proof.
    rewrite split_upper.
    destruct (split q) as [|word args]; cbn [map Yasper.execute_command];
      [reflexivity|].
    now rewrite upper_idem.
Qed.

  (** C8 (amended). [getCommand] has one failure value, [None]; when the
      first word of a line does not resolve, for whatever reason,
      [execute] prints the one message "Invalid or ambiguous command" and
      returns nothing. *)
Theorem execute_single_failure (self : Yasper.t Value)
      (tree : YasperCommandTree.t) (inputstring word : string)
      (args : list string) :
    Yasper.ctree self = Some tree ->
    split inputstring = word :: args ->
    Tree.getCommand tree (upper word) = None ->
    Yasper.execute self inputstring =
    Ok (None, ["ERROR: Invalid or ambiguous command"]).
Proof.
    intros Ht Hs Hn. unfold Yasper.execute.
    destruct (String.eqb_spec inputstring "") as [->|_]; [discriminate|].
    rewrite Hs. cbn [Yasper.execute_command]. unfold Yasper.getCommand.
    rewrite Ht, Hn. reflexivity.
Qed.

End YasperFacts.

Lemma execute_single_failure_witness :
  Yasper.execute example_yasper "ad 2 4 6 8" =
  Ok (None, ["ERROR: Invalid or ambiguous command"]).
Proof.
  eapply (execute_single_failure example_yasper _ "ad 2 4 6 8" "ad").
  - reflexivity.
  - reflexivity.
  - reflexivity.
Defined.

(** C8, as the code has it.  The specification calls the query ["AD"]
    ambiguous and the query ["YABUSA"] unmatched on the driver's commands;
    [getCommand] answers both with [None], so nothing computed from its
    result tells the two kinds apart. *)
Lemma failure_kinds_not_distinguished :
  ~ exists kind : option string -> ResolutionError,
      kind (Tree.getCommand driver_tree "AD") = Ambiguous /\
      kind (Tree.getCommand driver_tree "YABUSA") = NoMatch.
Proof.
  intros [kind [H1 H2]].
  change (Tree.getCommand driver_tree "AD") with (@None string) in H1.
  change (Tree.getCommand driver_tree "YABUSA") with (@None string) in H2.
  congruence.
Qed.

(** * Further properties of the code *)

(** ** Children stand for different characters *)

Lemma getCharacters_setChild cl k y :
  c y = k ->
  Children.getCharacters (Children.setChild cl k y) = Children.getCharacters cl.
Proof.
  intros <-. unfold Children.getCharacters.
  induction cl as [|x cl IH]; cbn [Children.setChild map]; [reflexivity|].
  destruct (String.eqb_spec (c x) (c y)) as [E|_]; cbn [map].
  - now rewrite E.
  - now rewrite IH.
Qed.

Lemma getChild_None_not_In cl k :
  Children.getChild cl k = None -> ~ In k (Children.getCharacters cl).
Proof.
  unfold Children.getCharacters.
  induction cl as [|x cl IH]; cbn [Children.getChild map]; [now intros _ []|].
  destruct (String.eqb_spec (c x) k) as [E|NE]; [discriminate|].
  intros H [E|HI]; [contradiction | now apply IH].
Qed.

Lemma NoDup_snoc {A} (l : list A) x : NoDup l -> ~ In x l -> NoDup (l ++ [x]).
Proof.
  intros H Hx. induction H as [|y l Hy H IH]; cbn [app].
  - constructor; [tauto | constructor].
  - constructor.
    + rewrite in_app_iff. intros [HI|[E|[]]]; [contradiction|].
      subst. apply Hx. now left.
    + apply IH. intros HI. apply Hx. now right.
Qed.

Lemma getChild_NoDup cl m :
  NoDup (Children.getCharacters cl) -> In m cl ->
  Children.getChild cl (c m) = Some m.
Proof.
  unfold Children.getCharacters.
  induction cl as [|x cl IH]; cbn [map Children.getChild]; [now intros _ []|].
  intros ND [->|H].
  - now rewrite String.eqb_refl.
  - inversion ND as [|? ? Hn ND']; subst.
    destruct (String.eqb_spec (c x) (c m)) as [E|_]; [|now apply IH].
    exfalso. apply Hn. rewrite E. now apply in_map.
Qed.

Lemma addCommand_distinct s : forall n,
  forall_nodes distinct_children n ->
  forall_nodes distinct_children (Node.addCommand s n).
Proof.
  induction s as [|a s IH]; intros n H.
  - apply forall_nodes_unfold in H. apply forall_nodes_unfold. exact H.
  - apply forall_nodes_unfold in H. destruct H as [Hn Hcl].
    apply forall_nodes_unfold. rewrite addCommand_cons.
    unfold distinct_children in *. cbn [children].
    destruct (Children.getChild (children n) (char1 a)) as [m|] eqn:E.
    + split.
      * rewrite getCharacters_setChild; [exact Hn|].
        rewrite addCommand_c. now apply getChild_c in E.
      * apply Forall_setChild; [exact Hcl|]. apply IH.
        apply getChild_In in E. rewrite Forall_forall in Hcl. now apply Hcl.
    + split.
      * unfold Children.getCharacters. rewrite map_app. cbn [map].
        rewrite addCommand_c. cbn [Node.init c].
        apply NoDup_snoc; [exact Hn | now apply getChild_None_not_In].
      * apply Forall_app. split; [exact Hcl|].
        constructor; [|constructor]. apply IH.
        apply forall_nodes_unfold. split; [constructor | constructor].
Qed.

Lemma grow_distinct cmds : forall n,
  forall_nodes distinct_children n ->
  forall_nodes distinct_children (grow cmds n).
Proof.
  induction cmds as [|cmd cmds IH]; intros n H; cbn [grow fold_left]; [exact H|].
  fold (grow cmds (Node.addCommand cmd n)). now apply IH, addCommand_distinct.
Qed.

Lemma getCharacters_finalized cl :
  Children.getCharacters (map finalized cl) = Children.getCharacters cl.
Proof.
  unfold Children.getCharacters. rewrite map_map.
  apply map_ext. intros x. apply finalized_c.
Qed.

Lemma finalized_distinct n :
  forall_nodes distinct_children n ->
  forall_nodes distinct_children (finalized n).
Proof.
  induction n as [c0 cl t md IH] using node_induction.
  intros H. apply forall_nodes_unfold in H. destruct H as [Hn Hcl].
  apply forall_nodes_unfold. unfold distinct_children in *.
  rewrite finalized_children, getCharacters_finalized. split; [exact Hn|].
  apply Forall_map. cbn [children] in *.
  rewrite Forall_forall in *. intros x Hx. now apply IH, Hcl.
Qed.

Lemma tree_of_distinct cmds :
  forall_nodes distinct_children (Tree.root (tree_of cmds)).
Proof.
  rewrite tree_of_root. apply finalized_distinct, grow_distinct.
  apply forall_nodes_unfold. split; constructor.
Qed.

Lemma distinct_descend p : forall n m,
  forall_nodes distinct_children n -> descend p n = Some m ->
  forall_nodes distinct_children m.
Proof.
  induction p as [|a p IH]; intros n m H E; cbn [descend] in E.
  - now injection E as <-.
  - destruct (Children.getChild (children n) (char1 a)) as [x|] eqn:G; [|discriminate].
    apply (IH x); [|exact E].
    apply forall_nodes_unfold in H. destruct H as [_ H].
    apply getChild_In in G. rewrite Forall_forall in H. now apply H.
Qed.

(** ** Resolution in terms of the command list *)

Lemma prefix_char1 b s :
  prefix (char1 b) s = true -> exists s', s = String b s'.
Proof.
  intros H. destruct (prefix_inv _ _ H) as [s' ->]. now exists s'.
Qed.

Lemma prefix_cons a q r : prefix (String a q) (String a r) = prefix q r.
Proof. cbn [prefix]. destruct (ascii_dec a a) as [_|NE]; [reflexivity | now elim NE]. Qed.

Lemma has_path_child n x :
  forall_nodes distinct_children n -> In x (children n) ->
  forall b q, c x = char1 b -> has_path (String b q) n = has_path q x.
Proof.
  intros D Hx b q Hc. apply forall_nodes_unfold in D. destruct D as [D _].
  pose proof (getChild_NoDup _ _ D Hx) as G. rewrite Hc in G.
  unfold has_path. cbn [descend]. now rewrite G.
Qed.

(** When every path below [n] spells a prefix of one word, no node of the
    subtree has two children. *)
Lemma chain_md r : forall n,
  forall_nodes distinct_children n -> tree_ok n ->
  (forall q, has_path q n = true -> prefix q r = true) ->
  maxdescendants n <= 1.
Proof.
  induction r as [|a r IH]; intros n D Hok Hp.
  - destruct Hok as [Hmd Hch]. unfold md_local in Hmd.
    destruct (children n) as [|x l] eqn:E; [cbn in Hmd; lia|].
    exfalso. pose proof (Forall_inv Hch) as Hx.
    apply forall_nodes_unfold in Hx. destruct Hx as [[[[b Hb] _] _] _].
    assert (In x (children n)) as Hin by (rewrite E; now left).
    specialize (Hp (char1 b)).
    unfold char1 in Hp at 1. rewrite (has_path_child n x D Hin b "" Hb) in Hp.
    specialize (Hp eq_refl). discriminate.
  - assert (Hall : forall x, In x (children n) -> c x = char1 a).
    { intros x Hin. destruct Hok as [_ Hch]. rewrite Forall_forall in Hch.
      pose proof (Hch x Hin) as Hx.
      apply forall_nodes_unfold in Hx. destruct Hx as [[[[b Hb] _] _] _].
      specialize (Hp (char1 b)).
      unfold char1 in Hp at 1. rewrite (has_path_child n x D Hin b "" Hb) in Hp.
      specialize (Hp eq_refl). apply prefix_char1 in Hp. destruct Hp as [s' Hs].
      injection Hs as -> _. exact Hb. }
    pose proof Hok as [Hmd Hch]. unfold md_local in Hmd.
    pose proof D as D'. apply forall_nodes_unfold in D'. destruct D' as [Dn Dch].
    unfold distinct_children, Children.getCharacters in Dn.
    destruct (children n) as [|x [|y l]] eqn:E.
    + cbn in Hmd. lia.
    + assert (Hx : maxdescendants x <= 1).
      { apply IH.
        - now apply Forall_inv in Dch.
        - apply node_ok_tree_ok. now apply Forall_inv in Hch.
        - intros q Hq. rewrite <- (prefix_cons a). apply Hp.
          rewrite (has_path_child n x D); [exact Hq | rewrite E; now left |].
          apply Hall. now left. }
      cbn [List.length map list_max fold_right] in Hmd. lia.
    + exfalso. cbn [map] in Dn.
      rewrite (Hall x), (Hall y) in Dn by (cbn; tauto).
      inversion Dn as [|? ? Hn _]; subst. apply Hn. now left.
Qed.

Lemma registered_has_child a r m :
  md_local m -> registered_at (String a r) m = true -> 1 <= maxdescendants m.
Proof.
  unfold md_local, registered_at. cbn [descend].
  destruct (children m) as [|x l]; intros Hmd H; [discriminate|].
  cbn [List.length] in Hmd. lia.
Qed.

(** The trail from the node of [P] spells the rest of the command
    [P ++ r] when nothing registered lies between [P] and the command, and
    nothing extends the command. *)
Lemma trail_to_command cmds P r m :
  descend P (Tree.root (tree_of cmds)) = Some m ->
  maxdescendants m <= 1 ->
  In (P ++ r) cmds ->
  (forall D, In D cmds -> prefix P D = true -> prefix D (P ++ r) = true ->
             D = P ++ r) ->
  (forall cmd, In cmd cmds -> prefix (P ++ r) cmd = true -> cmd = P ++ r) ->
  Node.followTrail m = Some (c m ++ r).
Proof.
  intros E Hmd HC Hmid Hext.
  apply followTrail_chain.
  - exact (tree_ok_descend _ _ _ (tree_of_ok cmds) E).
  - exact Hmd.
  - rewrite <- (descend_registered _ _ _ _ E), tree_of_registered.
    now apply existsb_eqb_In.
  - intros r1 r2 -> Hr2.
    rewrite <- (descend_registered _ _ _ _ E), tree_of_registered.
    apply existsb_eqb_not_In. intros HD.
    apply Hr2, (append_eq_self (P ++ r1)). rewrite append_assoc. symmetry.
    apply (Hmid _ HD); [apply prefix_append|].
    rewrite <- append_assoc. apply prefix_append.
  - intros a. rewrite <- (descend_has_path _ _ _ _ E), tree_of_has_path.
    rewrite <- append_assoc. unfold char1 at 1. rewrite append_not_nil.
    apply existsb_false. intros cmd Hcmd.
    destruct (prefix ((P ++ r) ++ char1 a) cmd) eqn:Px; [|reflexivity].
    exfalso. destruct (prefix_inv _ _ Px) as [t Ht].
    rewrite append_assoc in Ht.
    assert (Ec : cmd = P ++ r).
    { apply (Hext cmd Hcmd). rewrite Ht. apply prefix_append. }
    rewrite Ec in Ht. symmetry in Ht. apply append_eq_self in Ht. discriminate.
Qed.

(** A query that is not a command and that exactly one command extends
    resolves to that command. *)
Lemma search_unique_extension cmds P C :
  ~ In P cmds -> In C cmds -> prefix P C = true ->
  (forall D, In D cmds -> prefix P D = true -> D = C) ->
  Tree.getCommand (tree_of cmds) P = Some C.
Proof.
  intros HP HC Hpre Huniq.
  destruct (prefix_inv _ _ Hpre) as [r ->].
  destruct (tree_of_descend_prefix _ _ _ HC) as [m E].
  assert (T : terminal m = false).
  { rewrite (tree_of_terminal _ _ _ E). now apply existsb_eqb_not_In. }
  assert (Hok : tree_ok m) by exact (tree_ok_descend _ _ _ (tree_of_ok cmds) E).
  assert (Hr : registered_at r m = true).
  { rewrite <- (descend_registered _ _ _ _ E), tree_of_registered.
    now apply existsb_eqb_In. }
  assert (Hle : maxdescendants m <= 1).
  { apply (chain_md r).
    - exact (distinct_descend _ _ _ (tree_of_distinct cmds) E).
    - exact Hok.
    - intros q Hq. rewrite <- (descend_has_path _ _ _ _ E), tree_of_has_path in Hq.
      apply orb_true_iff in Hq. destruct Hq as [Hq|Hq].
      + apply String.eqb_eq in Hq. destruct P; [|discriminate].
        cbn [append] in Hq. subst q. apply prefix_nil.
      + apply existsb_exists in Hq. destruct Hq as [cmd [Hcmd Hq]].
        destruct (prefix_inv _ _ Hq) as [t Ht]. rewrite append_assoc in Ht.
        assert (Ec : cmd = P ++ r).
        { apply (Huniq cmd Hcmd). rewrite Ht. apply prefix_append. }
        rewrite Ec in Ht. apply append_inv_l in Ht. rewrite Ht.
        apply prefix_append. }
  assert (Hge : 1 <= maxdescendants m).
  { destruct r as [|a r].
    - exfalso. apply HP. now rewrite append_nil_r in HC.
    - exact (registered_has_child a r m (proj1 Hok) Hr). }
  destruct (search_at_nonterminal _ _ _ E T) as [pre [Hp Hs]].
  unfold Tree.getCommand. rewrite Hs.
  replace (maxdescendants m) with 1 by lia. cbn [Nat.eqb].
  rewrite tree_of_c in Hp. cbn [append] in Hp.
  rewrite (trail_to_command cmds P r m E Hle HC).
  - cbn [option_map]. now rewrite <- append_assoc, Hp.
  - intros D HD HPD _. now apply Huniq.
  - intros cmd Hcmd Hc. apply (Huniq cmd Hcmd).
    destruct (prefix_inv _ _ Hc) as [t ->]. rewrite append_assoc.
    apply prefix_append.
Qed.

Lemma existsb_false_inv {A} (g : A -> bool) l :
  existsb g l = false -> forall x, In x l -> g x = false.
Proof.
  intros H x Hx. destruct (g x) eqn:E; [|reflexivity].
  rewrite <- H. symmetry. apply existsb_exists. now exists x.
Qed.

Lemma nodup_nil_inv (l : list string) : nodup string_dec l = [] -> l = [].
Proof.
  intros N. destruct l as [|x l]; [reflexivity|].
  assert (Hx : In x (nodup string_dec (x :: l))) by (apply nodup_In; now left).
  rewrite N in Hx. destruct Hx.
Qed.

Lemma filter_prefix_nil (l : list string) : filter (prefix "") l = l.
Proof.
  induction l as [|x l IH]; cbn [filter]; [reflexivity|].
  now rewrite prefix_nil, IH.
Qed.

(** The walk of [searchCommand] and the reading of the command list agree
    from every point the walk can reach. *)
Lemma search_resolve_from cmds q : forall p,
  has_path p (Tree.root (tree_of cmds)) = true ->
  Node.searchCommand (p ++ q) (Tree.root (tree_of cmds)) =
  resolve_from cmds p q.
Proof.
  induction q as [|a q IH]; intros p Hp; cbn [resolve_from].
  - rewrite append_nil_r.
    destruct (existsb (String.eqb p) cmds) eqn:Reg.
    + rewrite search_registered, tree_of_c; [reflexivity|].
      now rewrite tree_of_registered.
    + apply existsb_eqb_not_In in Reg.
      destruct (nodup string_dec (filter (prefix p) cmds)) as [|c1 [|c2 l]] eqn:N.
      * apply nodup_nil_inv in N.
        rewrite tree_of_has_path in Hp. apply orb_true_iff in Hp.
        destruct Hp as [Hp|Hp].
        -- apply String.eqb_eq in Hp. subst p.
           rewrite filter_prefix_nil in N. subst cmds. reflexivity.
        -- exfalso. apply existsb_exists in Hp. destruct Hp as [x [Hx Px]].
           assert (Hf : In x (filter (prefix p) cmds)) by now apply filter_In.
           rewrite N in Hf. destruct Hf.
      * assert (H1 : In c1 (filter (prefix p) cmds)).
        { apply (nodup_In string_dec). rewrite N. now left. }
        apply filter_In in H1. destruct H1 as [H1 P1].
        apply (search_unique_extension cmds p c1 Reg H1 P1).
        intros D HD PD.
        assert (Hf : In D (nodup string_dec (filter (prefix p) cmds))).
        { apply nodup_In, filter_In. now split. }
        rewrite N in Hf. destruct Hf as [<-|[]]. reflexivity.
      * assert (NE : c1 <> c2).
        { pose proof (NoDup_nodup string_dec (filter (prefix p) cmds)) as ND.
          rewrite N in ND. inversion ND as [|? ? Hn _]; subst.
          intros ->. apply Hn. now left. }
        assert (H1 : In c1 (filter (prefix p) cmds)).
        { apply (nodup_In string_dec). rewrite N. now left. }
        assert (H2 : In c2 (filter (prefix p) cmds)).
        { apply (nodup_In string_dec). rewrite N. right. now left. }
        apply filter_In in H1, H2. destruct H1 as [H1 P1], H2 as [H2 P2].
        destruct (prefix_inv _ _ P1) as [s1 ->].
        destruct (prefix_inv _ _ P2) as [s2 ->].
        destruct (has_path_descend _ _ Hp) as [m E].
        assert (T : terminal m = false).
        { rewrite (tree_of_terminal _ _ _ E). now apply existsb_eqb_not_In. }
        destruct (search_at_nonterminal _ _ _ E T) as [pre [_ Hs]].
        rewrite Hs.
        destruct (Nat.eqb_spec (maxdescendants m) 1) as [Hmd|]; [|reflexivity].
        rewrite (followTrail_two s1 s2 m); [reflexivity| | | | |].
        -- exact (tree_ok_descend _ _ _ (tree_of_ok cmds) E).
        -- lia.
        -- rewrite <- (descend_registered _ _ _ _ E), tree_of_registered.
           now apply existsb_eqb_In.
        -- rewrite <- (descend_registered _ _ _ _ E), tree_of_registered.
           now apply existsb_eqb_In.
        -- intros ->. now apply NE.
  - destruct (existsb (prefix (p ++ char1 a)) cmds) eqn:Ex.
    + rewrite <- IH.
      * now rewrite append_assoc.
      * rewrite tree_of_has_path, Ex. apply orb_true_r.
    + destruct (has_path_descend _ _ Hp) as [m E].
      rewrite (search_diverge p a q _ m E).
      * now rewrite (tree_of_terminal _ _ _ E), tree_of_c.
      * apply (tree_of_no_child cmds p a m E).
        now apply existsb_false_inv.
Qed.

(** X1. [getCommand] on the tree of a command list computes
    [resolve_spec]: walk the query while some command goes on with the next
    character; at a divergence answer the part walked if it is a command;
    at the end of the query answer the query if it is a command, else the
    one command extending it, if exactly one does; fail otherwise. *)
Theorem getCommand_resolve_spec (cmds : list string) (q : string) :
  Tree.getCommand (tree_of cmds) q = resolve_spec cmds q.
Proof.
  unfold Tree.getCommand, resolve_spec.
  now rewrite <- (search_resolve_from cmds q "").
Qed.

(** X2. Undercompletion without looking into the tree: a query that is
    not itself a command and is a prefix of exactly one command of the list
    resolves to that command. *)
Theorem getCommand_unique_completion (cmds : list string) (P C : string) :
  ~ In P cmds -> In C cmds -> prefix P C = true ->
  (forall D, In D cmds -> prefix P D = true -> D = C) ->
  Tree.getCommand (tree_of cmds) P = Some C.
Proof. apply search_unique_extension. Qed.

Lemma getCommand_unique_completion_witness :
  Tree.getCommand (tree_of driver_commands) "E" = Some "ENCOURAGE".
Proof.
  apply (getCommand_unique_completion driver_commands "E" "ENCOURAGE").
  - intros [E|[E|[E|[E|[]]]]]; discriminate.
  - simpl; tauto.
  - reflexivity.
  - intros D [<-|[<-|[<-|[<-|[]]]]]; (discriminate || reflexivity).
Defined.

Lemma existsb_same {A} (g : A -> bool) l1 l2 :
  (forall x, In x l1 <-> In x l2) -> existsb g l1 = existsb g l2.
Proof.
  intros H.
  destruct (existsb g l1) eqn:E1, (existsb g l2) eqn:E2; try reflexivity.
  - apply existsb_exists in E1. destruct E1 as [x [Hx Gx]].
    rewrite <- E2. symmetry. apply existsb_exists. exists x.
    split; [now apply H | exact Gx].
  - apply existsb_exists in E2. destruct E2 as [x [Hx Gx]].
    rewrite <- E1. apply existsb_exists. exists x.
    split; [now apply H | exact Gx].
Qed.

Lemma single_same (l1 l2 : list string) :
  NoDup l1 -> NoDup l2 -> (forall x, In x l1 <-> In x l2) ->
  match l1 with [C] => Some C | _ => None end =
  match l2 with [C] => Some C | _ => None end.
Proof.
  intros N1 N2 H.
  assert (one : forall (k1 k2 : list string) C,
             NoDup k2 -> (forall x, In x [C] <-> In x k2) -> k2 = [C]).
  { intros _ k2 C Nk Hk. destruct k2 as [|y k2].
    - exfalso. apply (proj1 (Hk C)). now left.
    - assert (y = C) as ->.
      { destruct (proj2 (Hk y) (or_introl eq_refl)) as [E|[]]. now symmetry. }
      destruct k2 as [|z k2]; [reflexivity|]. exfalso.
      assert (z = C) as ->.
      { destruct (proj2 (Hk z) (or_intror (or_introl eq_refl))) as [E|[]].
        now symmetry. }
      inversion Nk as [|? ? Hn _]; subst. apply Hn. now left. }
  destruct l1 as [|a [|b l1]].
  - destruct l2 as [|y l2]; [reflexivity|].
    exfalso. apply (proj2 (H y)). now left.
  - now rewrite (one [a] l2 a N2 H).
  - destruct l2 as [|y [|z l2]]; [| |reflexivity].
    + exfalso. apply (proj1 (H a)). now left.
    + exfalso.
      assert (E : (a :: b :: l1) = [y]).
      { apply (one [y] _ y N1). intros x. symmetry. apply H. }
      discriminate.
Qed.

Lemma resolve_from_same c1 c2 q : forall p,
  (forall x, In x c1 <-> In x c2) ->
  resolve_from c1 p q = resolve_from c2 p q.
Proof.
  induction q as [|a q IH]; intros p H; cbn [resolve_from].
  - rewrite (existsb_same _ c1 c2 H).
    destruct (existsb (String.eqb p) c2); [reflexivity|].
    apply single_same; try apply NoDup_nodup.
    intros x. rewrite !nodup_In, !filter_In, H. reflexivity.
  - rewrite (existsb_same (prefix (p ++ char1 a)) c1 c2 H).
    rewrite (existsb_same (String.eqb p) c1 c2 H).
    now rewrite IH.
Qed.

(** X3. Resolution depends on the set of commands only: two lists with
    the same members, in any order and with any repetitions, give trees
    that answer every query alike. *)
Theorem getCommand_same_commands (cmds1 cmds2 : list string) (q : string) :
  (forall x, In x cmds1 <-> In x cmds2) ->
  Tree.getCommand (tree_of cmds1) q = Tree.getCommand (tree_of cmds2) q.
Proof.
  intros H. unfold Tree.getCommand.
  change q with ("" ++ q).
  rewrite (search_resolve_from cmds1 q "" eq_refl).
  rewrite (search_resolve_from cmds2 q "" eq_refl).
  now apply resolve_from_same.
Qed.

Lemma getCommand_same_commands_witness :
  Tree.getCommand (tree_of ["ADDN"; "SUBTRACT"; "ADD"; "ADDN"]) "ADDX" =
  Tree.getCommand (tree_of ["ADD"; "ADDN"; "SUBTRACT"]) "ADDX".
Proof.
  apply getCommand_same_commands.
  intros x. simpl. tauto.
Defined.

(** ** [updateMaxDescendants] *)

Lemma subnodes_unfold n :
  subnodes n = n :: flat_map subnodes (children n).
Proof.
  now destruct n.
Qed.






Lemma finalized_eq n :
  finalized n =
  mkNode (c n) (map finalized (children n)) (terminal n)
    (Nat.max (List.length (children n))
       (list_max (map maxdescendants (map finalized (children n))))).
Proof.
  destruct (finalized_fields n) as [Hc [Ht [Hch Hmd]]].
  unfold md_local in Hmd. rewrite Hch, length_map in Hmd.
  destruct (finalized n) as [c' cl' t' md']. cbn in *. now subst.
Qed.

Lemma finalized_idem n : finalized (finalized n) = finalized n.
Proof.
  induction n as [c0 cl t md IH] using node_induction.
  rewrite (finalized_eq (finalized _)).
  rewrite finalized_c, finalized_terminal, finalized_children.
  assert (E : map finalized (map finalized cl) = map finalized cl).
  { rewrite map_map. apply map_ext_in. rewrite Forall_forall in IH. exact IH. }
  cbn [children]. rewrite E, length_map.
  now rewrite (finalized_eq (mkNode c0 cl t md)).
Qed.

(** X5. Running [updateMaxDescendants] again on a tree it has been run on
    changes nothing and returns the same value. *)
Theorem updateMaxDescendants_idempotent (n : YasperCommandTreeNode) :
  Node.updateMaxDescendants (fst (Node.updateMaxDescendants n)) =
  Node.updateMaxDescendants n.
Proof.
  fold (finalized n).
  rewrite (surjective_pairing (Node.updateMaxDescendants (finalized n))).
  rewrite (surjective_pairing (Node.updateMaxDescendants n)).
  rewrite !updateMaxDescendants_snd. fold (finalized (finalized n)).
  fold (finalized n). now rewrite finalized_idem.
Qed.

(** ** [addCommand] and [initialize] *)

(** X6. Adding a command twice is adding it once. *)
Theorem addCommand_idempotent (s : string) (n : YasperCommandTreeNode) :
  Node.addCommand s (Node.addCommand s n) = Node.addCommand s n.
Proof.
  apply addCommand_registered.
  now rewrite registered_addCommand, String.eqb_refl.
Qed.

(** X7. After [initialize], a path of the tree ends on a terminal node
    exactly when it spells a command of the list, and exists exactly when
    it spells a prefix of one. *)
Theorem initialize_words (cmds : list string) (p : string) :
  (registered_at p (Tree.root (tree_of cmds)) = true <-> In p cmds) /\
  (has_path p (Tree.root (tree_of cmds)) = true <->
   p = "" \/ exists cmd, In cmd cmds /\ prefix p cmd = true).
Proof.
  split.
  - rewrite tree_of_registered. apply existsb_eqb_In.
  - rewrite tree_of_has_path, orb_true_iff, String.eqb_eq.
    now rewrite existsb_exists.
Qed.

Lemma map_finalized_setChild cl k y :
  map finalized (Children.setChild cl k y) =
  Children.setChild (map finalized cl) k (finalized y).
Proof.
  induction cl as [|x cl IH]; cbn [Children.setChild map]; [reflexivity|].
  rewrite finalized_c.
  destruct (String.eqb (c x) k); cbn [map]; [reflexivity | now rewrite IH].
Qed.

Lemma finalized_addCommand s : forall n,
  finalized (Node.addCommand s (finalized n)) = finalized (Node.addCommand s n).
Proof.
  induction s as [|a s IH]; intros n.
  - cbn [Node.addCommand]. rewrite !(finalized_eq (mkNode _ _ _ _)).
    cbn [c children terminal].
    rewrite finalized_c, finalized_children, length_map.
    assert (E : map finalized (map finalized (children n)) =
                map finalized (children n)).
    { rewrite map_map. apply map_ext. intros x. apply finalized_idem. }
    now rewrite E.
  - rewrite !addCommand_cons, !(finalized_eq (mkNode _ _ _ _)).
    cbn [c children terminal].
    rewrite finalized_c, finalized_terminal, finalized_children, getChild_finalized.
    assert (E : map finalized (map finalized (children n)) =
                map finalized (children n)).
    { rewrite map_map. apply map_ext. intros x. apply finalized_idem. }
    destruct (Children.getChild (children n) (char1 a)) as [m|] eqn:G;
      cbn [option_map].
    + rewrite !map_finalized_setChild, E, IH.
      assert (L : forall (l : list YasperCommandTreeNode) y,
                 Children.getChild l (char1 a) <> None ->
                 List.length (Children.setChild l (char1 a) y) = List.length l).
      { induction l as [|x l IHl]; intros y Hl; cbn in *; [now elim Hl|].
        destruct (String.eqb (c x) (char1 a)); cbn; [reflexivity|].
        now rewrite IHl. }
      rewrite !L; [now rewrite length_map | now rewrite G |].
      rewrite getChild_finalized, G. discriminate.
    + rewrite !map_app, E. cbn [map]. rewrite !length_app, length_map.
      reflexivity.
Qed.

Lemma grow_finalized cmds : forall n,
  finalized (grow cmds (finalized n)) = finalized (grow cmds n).
Proof.
  induction cmds as [|cmd cmds IH]; intros n; cbn [grow fold_left].
  - apply finalized_idem.
  - fold (grow cmds (Node.addCommand cmd (finalized n))).
    fold (grow cmds (Node.addCommand cmd n)).
    rewrite <- IH, finalized_addCommand. apply IH.
Qed.

(** X8. [initialize] may be called again: initializing a tree with one
    list and then with a second gives the tree of the two lists put
    together. *)
Theorem initialize_twice (cmds1 cmds2 : list string) :
  Tree.initialize (tree_of cmds1) cmds2 = tree_of (cmds1 ++ cmds2).
Proof.
  unfold tree_of, Tree.initialize at 1 3. f_equal.
  cbn [Tree.root Tree.initialize Tree.init].
  fold (grow cmds1 (Node.init "")).
  fold (finalized (grow cmds1 (Node.init ""))).
  fold (grow cmds2 (finalized (grow cmds1 (Node.init "")))).
  fold (finalized (grow cmds2 (finalized (grow cmds1 (Node.init ""))))).
  rewrite grow_finalized. unfold grow. now rewrite fold_left_app.
Qed.

(** ** [addChild] *)

(** X9. [addChild] on a list of children with different characters
    returns a node that stands for the character asked for.  When a child
    stands for the character already, the list is left as it is and that
    child is returned; when none does, exactly one new node, [init k], is
    put at the end of the list and returned.  Either way [getChild] then
    finds the node returned, and the characters are still different. *)
Theorem addChild_getChild (cl : list YasperCommandTreeNode) (k : string) :
  NoDup (Children.getCharacters cl) ->
  exists node,
    c node = k /\
    ((In node cl /\ Children.addChild cl k = (cl, Some node)) \/
     (~ In k (Children.getCharacters cl) /\ node = Node.init k /\
      Children.addChild cl k = ((cl ++ [node])%list, Some node))) /\
    Children.getChild (fst (Children.addChild cl k)) k = Some node /\
    NoDup (Children.getCharacters (fst (Children.addChild cl k))).
Proof.
  intros ND. destruct (Children.getChild cl k) as [m|] eqn:G.
  - assert (E : Children.addChild cl k = (cl, Some m)).
    { unfold Children.addChild. now rewrite getChild_existsb, G. }
    exists m. rewrite E. cbn [fst].
    split; [now apply getChild_c in G|]. split; [|now split].
    left. split; [now apply getChild_In in G | reflexivity].
  - exists (Node.init k). rewrite (addChild_fresh _ _ G). cbn [fst].
    split; [reflexivity|]. split; [|split].
    + right. split; [now apply getChild_None_not_In | now split].
    + rewrite getChild_app, G. cbn [Node.init c]. now rewrite String.eqb_refl.
    + unfold Children.getCharacters. rewrite map_app. cbn [map Node.init c].
      apply NoDup_snoc; [exact ND | now apply getChild_None_not_In].
Qed.

Lemma addChild_getChild_witness :
  exists node,
    c node = "B" /\
    ((In node [Node.init "A"] /\
      Children.addChild [Node.init "A"] "B" = ([Node.init "A"], Some node)) \/
     (~ In "B" (Children.getCharacters [Node.init "A"]) /\ node = Node.init "B" /\
      Children.addChild [Node.init "A"] "B" =
      (([Node.init "A"] ++ [node])%list, Some node))) /\
    Children.getChild (fst (Children.addChild [Node.init "A"] "B")) "B" = Some node /\
    NoDup (Children.getCharacters (fst (Children.addChild [Node.init "A"] "B"))).
Proof.
  apply (addChild_getChild [Node.init "A"] "B").
  cbn. constructor; [intros [] | constructor].
Defined.

(** X10. The children of every node of an initialized tree stand for
    different characters. *)
Theorem initialize_distinct_children (cmds : list string)
    (m : YasperCommandTreeNode) :
  In m (subnodes (Tree.root (tree_of cmds))) ->
  NoDup (Children.getCharacters (children m)).
Proof.
  pose proof (tree_of_distinct cmds) as H. revert m.
  induction (Tree.root (tree_of cmds)) as [c0 cl t md IH] using node_induction.
  intros m Hm. apply forall_nodes_unfold in H. destruct H as [Hn Hcl].
  rewrite subnodes_unfold in Hm. destruct Hm as [<-|Hm]; [exact Hn|].
  apply in_flat_map in Hm. destruct Hm as [x [Hx Hm]]. cbn [children] in *.
  rewrite Forall_forall in IH, Hcl. exact (IH x Hx (Hcl x Hx) m Hm).
Qed.

Lemma initialize_distinct_children_witness :
  NoDup (Children.getCharacters (children (Tree.root (tree_of driver_commands)))).
Proof.
  apply (initialize_distinct_children driver_commands).
  rewrite subnodes_unfold. now left.
Defined.

(** ** Case of the query *)

(** X11. [getCommand] itself compares characters exactly: on a tree of
    upper-cased commands that does not hold the empty command, a query that
    starts with a character [upper] would change fails. *)
Theorem getCommand_case_sensitive (cmds : list string) (a : ascii) (s : string) :
  (forall k, In k cmds -> upper k = k) -> ~ In "" cmds ->
  upper_ascii a <> a ->
  Tree.getCommand (tree_of cmds) (String a s) = None.
Proof.
  intros Hup Hne Ha. unfold Tree.getCommand.
  change (String a s) with ("" ++ String a s).
  rewrite (search_diverge "" a s _ (Tree.root (tree_of cmds)) eq_refl).
  - rewrite (tree_of_terminal cmds "" _ eq_refl).
    replace (existsb (String.eqb "") cmds) with false; [reflexivity|].
    symmetry. now apply existsb_eqb_not_In.
  - apply (tree_of_no_child cmds "" a _ eq_refl).
    intros cmd Hcmd. cbn [append].
    destruct (prefix (char1 a) cmd) eqn:P; [|reflexivity].
    exfalso. apply prefix_char1 in P. destruct P as [s' ->].
    pose proof (Hup _ Hcmd) as U. cbn [upper] in U. injection U as U _.
    now apply Ha.
Qed.

Lemma getCommand_case_sensitive_witness :
  Tree.getCommand (tree_of driver_commands) "add" = None.
Proof.
  apply (getCommand_case_sensitive driver_commands "a"%char "dd").
  - intros k [<-|[<-|[<-|[<-|[]]]]]; reflexivity.
  - intros [E|[E|[E|[E|[]]]]]; discriminate.
  - discriminate.
Defined.

(** ** The words of a line *)



Lemma split_from_nil s : forall cur,
  split_from cur s = [] <-> cur = "" /\ all_blank s = true.
Proof.
  induction s as [|a s IH]; intros cur; cbn [split_from all_blank].
  - destruct (String.eqb_spec cur "") as [->|NE]; split; try tauto; discriminate.
  - destruct (isspace a); cbn [andb].
    + destruct (String.eqb_spec cur "") as [->|NE].
      * rewrite IH. tauto.
      * split; [discriminate | now intros [E _]].
    + rewrite IH. split; [|now intros [_ E]].
      intros [E _]. destruct cur; discriminate.
Qed.

Lemma split_nil s : split s = [] <-> all_blank s = true.
Proof. unfold split. rewrite split_from_nil. tauto. Qed.



(** ** The function dictionary *)

Section DictFacts.

Context {Value : Type}.

Abbreviation Fn := (Yasper.YasperFunction Value).

Lemma dict_get_set_same (d : list (string * Fn)) k v :
  Yasper.dict_get (Yasper.dict_set d k v) k = Ok v.
Proof.
  induction d as [|[k' v'] d IH]; cbn [Yasper.dict_set Yasper.dict_get].
  - now rewrite String.eqb_refl.
  - destruct (String.eqb k' k) eqn:E; cbn [Yasper.dict_get]; rewrite E;
      [reflexivity | exact IH].
Qed.

Lemma keys_set_present (d : list (string * Fn)) k v :
  In k (Yasper.keys d) -> Yasper.keys (Yasper.dict_set d k v) = Yasper.keys d.
Proof.
  unfold Yasper.keys.
  induction d as [|[k0 v0] d IH]; cbn [Yasper.dict_set map fst]; [now intros []|].
  destruct (String.eqb_spec k0 k) as [->|NE]; cbn [map fst]; [reflexivity|].
  intros [E|H]; [contradiction | now rewrite IH].
Qed.

Lemma keys_set_absent (d : list (string * Fn)) k v :
  ~ In k (Yasper.keys d) ->
  Yasper.keys (Yasper.dict_set d k v) = (Yasper.keys d ++ [k])%list.
Proof.
  unfold Yasper.keys.
  induction d as [|[k0 v0] d IH]; cbn [Yasper.dict_set map fst app]; [reflexivity|].
  intros H. destruct (String.eqb_spec k0 k) as [->|NE]; cbn [map fst].
  - exfalso. apply H. now left.
  - rewrite IH; [reflexivity|]. intros HI. apply H. now right.
Qed.

Lemma dict_get_In (d : list (string * Fn)) k :
  In k (Yasper.keys d) -> exists fn, Yasper.dict_get d k = Ok fn /\ In (k, fn) d.
Proof.
  unfold Yasper.keys.
  induction d as [|[k0 v0] d IH]; cbn [map fst Yasper.dict_get]; [now intros []|].
  intros H. destruct (String.eqb_spec k0 k) as [->|NE].
  - exists v0. split; [reflexivity | now left].
  - destruct H as [E|H]; [contradiction|].
    destruct (IH H) as [fn [E HI]]. exists fn. split; [exact E | now right].
Qed.

(** X13. Names that differ only in case are one command: registering a
    second function under such a name replaces the first and adds no
    command; the commands and their order stay as they were. *)
Theorem registerFunction_case_collision (self : Yasper.t Value)
    (s1 s2 : string) (f1 f2 : list string -> Value) (n1 n2 : Z) :
  upper s1 = upper s2 ->
  let y1 := Yasper.registerFunction self s1 f1 n1 in
  let y2 := Yasper.registerFunction y1 s2 f2 n2 in
  Yasper.dict_get (Yasper.fdict y2) (upper s1) = Ok (Yasper.mkFunction f2 n2) /\
  Yasper.keys (Yasper.fdict y2) = Yasper.keys (Yasper.fdict y1).
Proof.
  intros E y1 y2. subst y1 y2. cbn [Yasper.registerFunction Yasper.fdict].
  rewrite <- E. split; [apply dict_get_set_same|].
  apply keys_set_present.
  destruct (in_dec string_dec (upper s1) (Yasper.keys (Yasper.fdict self))) as [H|H].
  - now rewrite keys_set_present.
  - rewrite keys_set_absent by exact H. apply in_or_app. right. now left.
Qed.

Lemma register_all_snoc (regs : list (string * Fn)) r :
  Yasper.register_all (regs ++ [r]) =
  Yasper.registerFunction (Yasper.register_all regs) (fst r)
    (Yasper.f (snd r)) (Yasper.nargs (snd r)).
Proof. unfold Yasper.register_all. now rewrite fold_left_app. Qed.

Lemma register_all_ctree (regs : list (string * Fn)) :
  Yasper.ctree (Yasper.register_all regs) = None.
Proof.
  induction regs as [|r regs IH] using rev_ind; [reflexivity|].
  rewrite register_all_snoc. exact IH.
Qed.

Lemma register_all_keys (regs : list (string * Fn)) :
  NoDup (Yasper.keys (Yasper.fdict (Yasper.register_all regs))) /\
  forall k, In k (Yasper.keys (Yasper.fdict (Yasper.register_all regs))) <->
            In k (map (fun r => upper (fst r)) regs).
Proof.
  induction regs as [|r regs [ND IH]] using rev_ind.
  - split; [constructor | reflexivity].
  - rewrite register_all_snoc. cbn [Yasper.registerFunction Yasper.fdict].
    set (d := Yasper.fdict (Yasper.register_all regs)) in *.
    rewrite map_app. cbn [map].
    destruct (in_dec string_dec (upper (fst r)) (Yasper.keys d)) as [H|H].
    + rewrite (keys_set_present _ _ _ H). split; [exact ND|].
      intros k. rewrite in_app_iff, <- IH. cbn [In]. split; [tauto|].
      intros [HI|[<-|[]]]; assumption.
    + rewrite (keys_set_absent _ _ _ H). split.
      * now apply NoDup_snoc.
      * intros k. rewrite !in_app_iff, IH. reflexivity.
Qed.

(** X14. The commands of a parser are the upper-cased names that were
    registered, each of them once. *)
Theorem register_all_commands (regs : list (string * Fn)) (k : string) :
  NoDup (Yasper.keys (Yasper.fdict (Yasper.register_all regs))) /\
  (In k (Yasper.keys (Yasper.fdict (Yasper.register_all regs))) <->
   exists r, In r regs /\ k = upper (fst r)).
Proof.
  destruct (register_all_keys regs) as [ND H]. split; [exact ND|].
  rewrite H, in_map_iff. split; intros [r [A B]]; exists r; auto.
Qed.

End DictFacts.

Lemma registerFunction_case_collision_witness :
  Yasper.keys
    (Yasper.fdict
       (Yasper.registerFunction
          (Yasper.registerFunction (@Yasper.init nat) "add" (@List.length string) (-1))
          "ADD" (fun _ => 0) 2)) = ["ADD"].
Proof.
  pose proof (registerFunction_case_collision (@Yasper.init nat) "add" "ADD"
                (@List.length string) (fun _ => 0) (-1) 2 eq_refl) as [_ H].
  exact H.
Defined.

(** ** [execute] on an initialized parser *)

Lemma tree_of_sound cmds q r :
  Tree.getCommand (tree_of cmds) q = Some r -> In r cmds.
Proof.
  intros H. unfold Tree.getCommand in H.
  destruct (search_sound q _ r (tree_of_ok cmds) H) as [w [-> Hw]].
  rewrite tree_of_c. cbn [append].
  rewrite tree_of_registered in Hw. now apply existsb_eqb_In.
Qed.

Section ExecuteFacts.

Context {Value : Type}.

Abbreviation Fn := (Yasper.YasperFunction Value).

(** The parser the driver builds: registrations, then [initialize]. *)
Abbreviation ready regs :=
  (Yasper.initialize (Yasper.register_all (Value := Value) regs)).

Lemma ready_getCommand (regs : list (string * Fn)) s :
  Yasper.getCommand (ready regs) s =
  Ok (Tree.getCommand
        (tree_of (Yasper.keys (Yasper.fdict (Yasper.register_all regs)))) s).
Proof. reflexivity. Qed.

Lemma callFunction_Ok (self : Yasper.t Value) cmd fn args :
  Yasper.dict_get (Yasper.fdict self) cmd = Ok fn ->
  Yasper.callFunction self cmd args =
  if (Z.of_nat (List.length args) >=? Yasper.nargs fn)%Z
  then Ok (Some (Yasper.f fn
                   (if (Yasper.nargs fn >=? 0)%Z
                    then firstn (Z.to_nat (Yasper.nargs fn)) args else args)),
           [])
  else Ok (None, [errorprint ("Too few arguments for command " ++ cmd)]).
Proof. intros E. unfold Yasper.callFunction. now rewrite E. Qed.


(** C7. Commands are stored upper-cased: the keys of a parser are fixed by
    [upper], a registration stores its function under the upper-cased
    name, and the keys are exactly the upper-cased registered names.
    Resolution upper-cases the query: the command [execute] resolves for a
    line is the one it resolves for the upper-cased line, and on an
    initialized parser a registered name typed in any case resolves to its
    upper-cased key. *)
Theorem execute_case_insensitive :
  (forall regs : list (string * Fn),
      Forall (fun k => upper k = k)
        (Yasper.keys (Yasper.fdict (Yasper.register_all regs)))) /\
  (forall (self : Yasper.t Value) (q : string),
      Yasper.execute_command self (split (upper q)) =
      Yasper.execute_command self (split q)) /\
  (forall (self : Yasper.t Value) (s : string) (fn : list string -> Value)
          (n : Z),
      Yasper.dict_get (Yasper.fdict (Yasper.registerFunction self s fn n))
        (upper s) = Ok (Yasper.mkFunction fn n)) /\
  (forall (regs : list (string * Fn)) (k : string),
      In k (Yasper.keys (Yasper.fdict (Yasper.register_all regs))) <->
      exists r, In r regs /\ k = upper (fst r)) /\
  (forall (regs : list (string * Fn)) (r : string * Fn) (word : string)
          (args : list string),
      In r regs -> upper word = upper (fst r) ->
      Yasper.execute_command (ready regs) (word :: args) =
      Ok (Some (upper (fst r)))).
Proof.
  split; [exact register_all_upper|].
  split; [exact execute_command_upper|].
  split; [intros self s fn n; apply dict_get_set_same|].
  assert (K : forall (regs : list (string * Fn)) (k : string),
             In k (Yasper.keys (Yasper.fdict (Yasper.register_all regs))) <->
             exists r, In r regs /\ k = upper (fst r)).
  { intros regs k. destruct (register_all_keys regs) as [_ H].
    rewrite H, in_map_iff. split; intros [r [A B]]; exists r; auto. }
  split; [exact K|].
  intros regs r word args Hr Hw.
  cbn [Yasper.execute_command]. rewrite ready_getCommand, Hw.
  rewrite tree_of_getCommand_registered; [reflexivity|].
  apply K. now exists r.
Qed.

(** X16. What [execute] does with a line whose first word resolves: the
    resolved command has a function in the dictionary; with enough
    arguments that function is called on the first [nargs] arguments (on
    all of them when [nargs] is negative), and with too few the error line
    is printed and nothing is returned. *)
Theorem execute_resolved (regs : list (string * Fn))
    (inputstring word cmd : string) (args : list string) :
  split inputstring = word :: args ->
  Tree.getCommand
    (tree_of (Yasper.keys (Yasper.fdict (Yasper.register_all regs))))
    (upper word) = Some cmd ->
  exists fn,
    In (cmd, fn) (Yasper.fdict (Yasper.register_all regs)) /\
    Yasper.execute (ready regs) inputstring =
    if (Z.of_nat (List.length args) >=? Yasper.nargs fn)%Z
    then Ok (Some (Yasper.f fn
                     (if (Yasper.nargs fn >=? 0)%Z
                      then firstn (Z.to_nat (Yasper.nargs fn)) args else args)),
             [])
    else Ok (None, ["ERROR: Too few arguments for command " ++ cmd]).
Proof.
  intros S G.
  destruct (dict_get_In _ _ (tree_of_sound _ _ _ G)) as [fn [D HI]].
  exists fn. split; [exact HI|].
  unfold Yasper.execute.
  destruct (String.eqb_spec inputstring "") as [->|NE]; [discriminate|].
  rewrite S. cbn [Yasper.execute_command]. rewrite ready_getCommand, G.
  cbn [bind tl]. exact (callFunction_Ok (ready regs) cmd fn args D).
Qed.

(** X17. The argument count the header promises: whenever [execute]
    returns the value of a function, it is a registered function called on
    a list of exactly [nargs] arguments when [nargs] is not negative, and
    nothing was printed. *)
Theorem execute_argument_count (regs : list (string * Fn))
    (inputstring : string) (v : Value) (out : list string) :
  Yasper.execute (ready regs) inputstring = Ok (Some v, out) ->
  exists cmd fn data,
    In (cmd, fn) (Yasper.fdict (Yasper.register_all regs)) /\
    v = Yasper.f fn data /\ out = [] /\
    ((0 <= Yasper.nargs fn)%Z -> Z.of_nat (List.length data) = Yasper.nargs fn).
Proof.
  unfold Yasper.execute.
  destruct (String.eqb_spec inputstring "") as [->|NE]; [discriminate|].
  destruct (split inputstring) as [|word args] eqn:S; [discriminate|].
  cbn [Yasper.execute_command]. rewrite ready_getCommand. cbn [bind tl].
  destruct (Tree.getCommand _ (upper word)) as [cmd|] eqn:G; [|discriminate].
  destruct (dict_get_In _ _ (tree_of_sound _ _ _ G)) as [fn [D HI]].
  rewrite (callFunction_Ok (ready regs) cmd fn args D).
  destruct (Z.geb_spec (Z.of_nat (List.length args)) (Yasper.nargs fn)) as [L|L];
    [|discriminate].
  intros H. injection H as <- <-.
  exists cmd, fn. eexists. split; [exact HI|]. split; [reflexivity|].
  split; [reflexivity|]. intros Hn.
  destruct (Z.geb_spec (Yasper.nargs fn) 0) as [_|N]; [|lia].
  rewrite length_firstn. lia.
Qed.

(** X18. A parser that was not initialized has no tree: [execute] on a
    line with a word raises [AttributeError]. *)
Theorem execute_before_initialize (regs : list (string * Fn))
    (inputstring : string) :
  all_blank inputstring = false ->
  Yasper.execute (Yasper.register_all regs) inputstring = Raise AttributeError.
Proof.
  intros B. unfold Yasper.execute.
  destruct (String.eqb_spec inputstring "") as [->|NE]; [discriminate|].
  destruct (split inputstring) as [|word args] eqn:S.
  - apply split_nil in S. congruence.
  - cbn [Yasper.execute_command]. unfold Yasper.getCommand.
    now rewrite register_all_ctree.
Qed.

End ExecuteFacts.

Lemma execute_case_insensitive_witness :
  Yasper.execute_command example_yasper ["aDd"; "2"] = Ok (Some "ADD").
Proof.
  apply (proj2 (proj2 (proj2 (proj2 (@execute_case_insensitive nat))))
           [("add", Yasper.mkFunction (@List.length string) (-1));
            ("addn", Yasper.mkFunction (@List.length string) (-1))]
           ("add", Yasper.mkFunction (@List.length string) (-1))
           "aDd" ["2"]).
  - now left.
  - reflexivity.
Defined.


Lemma execute_resolved_witness :
  exists fn,
    In ("ADD", fn) (Yasper.fdict (Yasper.register_all
         [("add", Yasper.mkFunction (@List.length string) (-1));
          ("addn", Yasper.mkFunction (@List.length string) (-1))])) /\
    Yasper.execute example_yasper "addq 2 4 6 8" =
    if (Z.of_nat (List.length ["2"; "4"; "6"; "8"]) >=? Yasper.nargs fn)%Z
    then Ok (Some (Yasper.f fn
                     (if (Yasper.nargs fn >=? 0)%Z
                      then firstn (Z.to_nat (Yasper.nargs fn)) ["2"; "4"; "6"; "8"]
                      else ["2"; "4"; "6"; "8"])),
             [])
    else Ok (None, ["ERROR: Too few arguments for command " ++ "ADD"]).
Proof.
  apply (execute_resolved
           [("add", Yasper.mkFunction (@List.length string) (-1));
            ("addn", Yasper.mkFunction (@List.length string) (-1))]
           "addq 2 4 6 8" "addq" "ADD" ["2"; "4"; "6"; "8"]).
  - reflexivity.
  - reflexivity.
Defined.

Lemma execute_argument_count_witness :
  exists cmd fn data,
    In (cmd, fn) (Yasper.fdict (Yasper.register_all
         [("first", Yasper.mkFunction (@List.length string) 1)])) /\
    1 = Yasper.f fn data /\ @nil string = [] /\
    ((0 <= Yasper.nargs fn)%Z -> Z.of_nat (List.length data) = Yasper.nargs fn).
Proof.
  apply (execute_argument_count
           [("first", Yasper.mkFunction (@List.length string) 1)]
           "fir a b c" 1 []).
  reflexivity.
Defined.

Lemma execute_before_initialize_witness :
  Yasper.execute
    (Yasper.register_all [("add", Yasper.mkFunction (@List.length string) (-1))])
    "add 1" = Raise AttributeError.
Proof.
  apply (execute_before_initialize
           [("add", Yasper.mkFunction (@List.length string) (-1))] "add 1").
  reflexivity.
Defined.

(** ** The answer and the query *)

Lemma search_related s : forall n r,
  Node.searchCommand s n = Some r ->
  exists w, r = c n ++ w /\ (prefix s w = true \/ prefix w s = true).
Proof.
  induction s as [|a s IH]; intros n r H; cbn [Node.searchCommand] in H.
  - destruct (terminal n).
    + injection H as <-. exists "". rewrite append_nil_r. now split; [|left].
    + destruct (maxdescendants n =? 1)%nat; [|discriminate].
      rewrite followTrail_unfold in H.
      assert (E : exists w, r = c n ++ w).
      { destruct (children n) as [|x [|y l]].
        - injection H as <-. exists "". now rewrite append_nil_r.
        - destruct (terminal n); [discriminate|].
          destruct (Node.followTrail x) as [sub|]; [|discriminate].
          injection H as <-. now exists sub.
        - injection H as <-. exists "". now rewrite append_nil_r. }
      destruct E as [w ->]. exists w. split; [reflexivity|]. left. apply prefix_nil.
  - destruct (Children.getChild (children n) (char1 a)) as [x|] eqn:G.
    + destruct (Node.searchCommand s x) as [fs|] eqn:Es; [|discriminate].
      injection H as <-. destruct (IH x fs Es) as [w [-> Hw]].
      exists (String a w). split; [now rewrite (getChild_c _ _ _ G)|].
      now rewrite !prefix_cons.
    + destruct (terminal n); [|discriminate].
      injection H as <-. exists "". rewrite append_nil_r.
      split; [reflexivity|]. right. apply prefix_nil.
Qed.

(** X19. An answer is never unrelated to the query: the command
    [getCommand] returns either starts with the whole query (an exact match
    or an undercompletion) or is the beginning of the query (an
    overcompletion). *)
Theorem getCommand_related (cmds : list string) (q r : string) :
  Tree.getCommand (tree_of cmds) q = Some r ->
  prefix q r = true \/ prefix r q = true.
Proof.
  intros H. unfold Tree.getCommand in H.
  destruct (search_related q _ r H) as [w [-> Hw]].
  now rewrite tree_of_c.
Qed.

Lemma getCommand_related_witness :
  prefix "ADDNFWEF" "ADDN" = true \/ prefix "ADDN" "ADDNFWEF" = true.
Proof.
  apply (getCommand_related driver_commands "ADDNFWEF" "ADDN").
  reflexivity.
Defined.
